(** * gosolid: a posts CRUD service and its notifier demos

    Shallow embedding of the Go sources and the properties proved about them.

    - [GoInt], [Strconv]: the Go [int] type and [strconv.Atoi].
    - [GoJSON]: [encoding/json]'s decoder, as [ShouldBindJSON] runs it.
    - [Crud]: the CRUD service (in-memory store, [DB] methods, gin handlers).
    - [Notify]: the notifier demo ([UpdateHandler] fanning out to notifiers)
      and its type-switch variant of lsp.go. *)

From Stdlib Require Import ZArith Lia Ascii.
From stdpp Require Import gmap strings list fin_maps sorting.

Local Open Scope string_scope.
Local Open Scope list_scope.
Local Open Scope Z_scope.

(** ** Go's [int]

    [int] is a signed 64-bit integer on the 64-bit targets; arithmetic that
    leaves the range wraps around (two's complement). *)
Module GoInt.

Definition int_min : Z := -9223372036854775808.
Definition int_max : Z := 9223372036854775807.
Definition int_modulus : Z := 18446744073709551616.

Definition int_wrap (z : Z) : Z := (z - int_min) mod int_modulus + int_min.

Definition in_int_range (z : Z) : bool := (int_min <=? z) && (z <=? int_max).

(** [x++] on an [int] variable. *)
Definition incr (x : Z) : Z := int_wrap (x + 1).

(** [cmp.Compare] at type [int]. *)
Definition cmp_Compare (x y : Z) : Z :=
  if x <? y then -1 else if y <? x then 1 else 0.

End GoInt.

(** ** Errors *)

Inductive error : Type :=
  | ErrNotFound                      (* errors.New("not found") *)
  | ErrSyntax (fn s : string)        (* strconv.NumError with ErrSyntax *)
  | ErrRange (fn s : string)         (* strconv.NumError with ErrRange *)
  | ErrOther (msg : string).         (* any other error value *)

Global Instance error_eq_dec : EqDecision error.
Proof. solve_decision. Defined.

(** ** [strconv.Atoi]

    An optional sign followed by one or more decimal digits; the value has to
    fit [int].  A syntax error yields 0 and a range error the nearest bound,
    each with a non-nil error.  (The fast path [Atoi] takes on short strings
    gives what [ParseInt] gives on them.) *)
Module Strconv.
Import GoInt.

Definition digit_val (c : ascii) : option Z :=
  let n := Z.of_N (Ascii.N_of_ascii c) in
  if (48 <=? n) && (n <=? 57) then Some (n - 48) else None.

(** [strconv.ParseUint] in base 10 at 64 bits, from the digits read so far:
    a byte that is no digit is a syntax error, and the value leaving the
    range is a range error, whichever the scan meets first. *)
Inductive uint_result : Type :=
  | UintOk (n : Z)
  | UintSyntax
  | UintRange.

Definition uint64_max : Z := 18446744073709551615.
Definition uint64_cutoff : Z := 1844674407370955162.   (* uint64_max / 10 + 1 *)

Fixpoint ParseUint (n : Z) (s : string) : uint_result :=
  match s with
  | EmptyString => UintOk n
  | String c s' =>
      match digit_val c with
      | None => UintSyntax
      | Some d =>
          if uint64_cutoff <=? n then UintRange
          else if uint64_max <? n * 10 + d then UintRange
          else ParseUint (n * 10 + d) s'
      end
  end.

(** Splits off a leading sign: the flag says whether it was a minus. *)
Definition split_sign (s : string) : bool * string :=
  match s with
  | String "-"%char s' => (true, s')
  | String "+"%char s' => (false, s')
  | _ => (false, s)
  end.

Definition Atoi (s : string) : Z * option error :=
  let '(neg, ds) := split_sign s in
  match ds with
  | EmptyString => (0, Some (ErrSyntax "Atoi" s))
  | _ =>
      match ParseUint 0 ds with
      | UintSyntax => (0, Some (ErrSyntax "Atoi" s))
      | UintRange => (if neg then int_min else int_max, Some (ErrRange "Atoi" s))
      | UintOk n =>
          let v := if neg then - n else n in
          if in_int_range v then (v, None)
          else (if neg then int_min else int_max, Some (ErrRange "Atoi" s))
      end
  end.

(** What "numeric" means for a path parameter: an optionally signed,
    non-empty run of decimal digits. *)
Fixpoint all_digits (s : string) : bool :=
  match s with
  | EmptyString => true
  | String c s' => bool_decide (is_Some (digit_val c)) && all_digits s'
  end.

Definition is_numeric (s : string) : bool :=
  let ds := (split_sign s).2 in
  negb (bool_decide (ds = "")) && all_digits ds.

End Strconv.

(** ** The CRUD service *)
Module Crud.
Import GoInt Strconv.

Record Post : Type := mkPost { ID : Z; Title : string; Body : string }.

(** [Post{}] *)
Definition Post_zero : Post := mkPost 0 "" "".

(** The package-level variables [inmemoryPostDB] and [idPostCounter]
    ([idPostMutex] only serialises [AddPost]; the model is sequential). *)
Record Store : Type := mkStore {
  inmemoryPostDB : gmap Z Post;
  idPostCounter : Z
}.

Definition init_store : Store := mkStore ∅ 0.

(** *** The [DB] methods: every one returns its results and the next store. *)

Definition AddPost (newPost : Post) (s : Store) : (Post * option error) * Store :=
  let counter := incr (idPostCounter s) in
  let newPost := mkPost counter (Title newPost) (Body newPost) in
  ((newPost, None), mkStore (<[counter := newPost]> (inmemoryPostDB s)) counter).

Definition GetPostByID (id : Z) (s : Store) : Post * option error :=
  match inmemoryPostDB s !! id with
  | None => (Post_zero, Some ErrNotFound)
  | Some post => (post, None)
  end.

(** [maps.Values]: the stored values, in the map's iteration order. *)
Definition maps_Values (m : gmap Z Post) : list Post := (map_to_list m).*2.

(** [slices.SortedFunc]: collects the values and sorts them by [cmp]. *)
Definition cmp_le (cmp : Post → Post → Z) : relation Post :=
  λ p1 p2, cmp p1 p2 <= 0.

Global Instance cmp_le_dec cmp : RelDecision (cmp_le cmp).
Proof. intros p1 p2. unfold cmp_le. apply _. Defined.

Definition SortedFunc (cmp : Post → Post → Z) (seq : list Post) : list Post :=
  merge_sort (cmp_le cmp) seq.

Definition cmp_by_ID (p1 p2 : Post) : Z := cmp_Compare (ID p1) (ID p2).

Definition GetAllPost (s : Store) : list Post * option error :=
  let posts := SortedFunc cmp_by_ID (maps_Values (inmemoryPostDB s)) in
  (posts, None).

Definition UpdatePost (updatePost : Post) (s : Store)
  : (Post * option error) * Store :=
  ((updatePost, None),
   mkStore (<[ID updatePost := updatePost]> (inmemoryPostDB s)) (idPostCounter s)).

Definition DeletePostByID (id : Z) (s : Store) : option error * Store :=
  (None, mkStore (delete id (inmemoryPostDB s)) (idPostCounter s)).

(** *** Request and response structs *)

Record NewPostReq : Type := mkNewPostReq { npq_Title : string; npq_Body : string }.
Record NewPostResp : Type :=
  mkNewPostResp { npr_ID : Z; npr_Title : string; npr_Body : string }.
Record GetPostResp : Type :=
  mkGetPostResp { gpr_ID : Z; gpr_Title : string; gpr_Body : string }.
Record ListPostDataResp : Type :=
  mkListPostDataResp { lpr_ID : Z; lpr_Title : string; lpr_Body : string }.
Record UpdatePostReq : Type := mkUpdatePostReq { upq_Title : string; upq_Body : string }.
Record UpdatePostResp : Type :=
  mkUpdatePostResp { upr_ID : Z; upr_Title : string; upr_Body : string }.

(** What [c.JSON] was given to render. *)
Inductive Payload : Type :=
  | JNewPostResp (r : NewPostResp)
  | JGetPostResp (r : GetPostResp)
  | JListPostDataResps (l : list ListPostDataResp)
  | JUpdatePostResp (r : UpdatePostResp).

(** *** [gin.Context]: the request read by the handlers and the response
    they build. *)
Record Context : Type := mkContext {
  Params : gmap string string;     (* path parameters *)
  RequestBody : string;            (* c.Request.Body *)
  Status : Z;                      (* status code of the response *)
  Errors : list error;             (* c.Errors *)
  Rendered : option Payload;       (* body of the response *)
  Aborted : bool
}.

Definition StatusOK : Z := 200.
Definition StatusCreated : Z := 201.
Definition StatusNoContent : Z := 204.
Definition StatusBadRequest : Z := 400.
Definition StatusNotFound : Z := 404.
Definition StatusInternalServerError : Z := 500.

(** A request as the router hands it to a handler. *)
Definition new_Context (params : gmap string string) (body : string) : Context :=
  mkContext params body StatusOK [] None false.

(** [c.Param(key)]: the empty string when the parameter is absent. *)
Definition Param (key : string) (c : Context) : string :=
  default "" (Params c !! key).

Definition AbortWithStatus (code : Z) (c : Context) : Context :=
  mkContext (Params c) (RequestBody c) code (Errors c) (Rendered c) true.

Definition Error (err : error) (c : Context) : Context :=
  mkContext (Params c) (RequestBody c) (Status c) (Errors c ++ [err])
            (Rendered c) (Aborted c).

Definition AbortWithError (code : Z) (err : error) (c : Context) : Context :=
  Error err (AbortWithStatus code c).

Definition JSON (code : Z) (obj : Payload) (c : Context) : Context :=
  mkContext (Params c) (RequestBody c) code (Errors c) (Some obj) (Aborted c).

Definition SetStatus (code : Z) (c : Context) : Context :=
  mkContext (Params c) (RequestBody c) code (Errors c) (Rendered c) (Aborted c).

Section Handlers.

(** JSON decoding is the framework's: [decode body] is the outcome of
    unmarshalling [body] into a struct with the fields [title] and [body],
    an error when the body is malformed. *)
Variable decode : string → error + (string * string).

Definition ShouldBindJSON_NewPostReq (c : Context) : NewPostReq * option error :=
  match decode (RequestBody c) with
  | inl err => (mkNewPostReq "" "", Some err)
  | inr (t, b) => (mkNewPostReq t b, None)
  end.

Definition ShouldBindJSON_UpdatePostReq (c : Context)
  : UpdatePostReq * option error :=
  match decode (RequestBody c) with
  | inl err => (mkUpdatePostReq "" "", Some err)
  | inr (t, b) => (mkUpdatePostReq t b, None)
  end.

Definition NewPostHandler (c : Context) (s : Store) : Context * Store :=
  match ShouldBindJSON_NewPostReq c with
  | (_, Some err) => (AbortWithError StatusBadRequest err c, s)
  | (newPostReq, None) =>
      match AddPost (mkPost 0 (npq_Title newPostReq) (npq_Body newPostReq)) s with
      | ((_, Some err), s') => (AbortWithError StatusInternalServerError err c, s')
      | ((post, None), s') =>
          let newPostResp := mkNewPostResp (ID post) (Title post) (Body post) in
          (JSON StatusOK (JNewPostResp newPostResp) c, s')
      end
  end.

Definition GetPostHandler (c : Context) (s : Store) : Context * Store :=
  let idParam := Param "id" c in
  if decide (idParam = "") then (AbortWithStatus StatusBadRequest c, s) else
  match Atoi idParam with
  | (_, Some err) => (AbortWithError StatusBadRequest err c, s)
  | (id, None) =>
      match GetPostByID id s with
      | (_, Some err) =>
          if decide (err = ErrNotFound) then (AbortWithStatus StatusNotFound c, s)
          else (AbortWithError StatusInternalServerError err c, s)
      | (post, None) =>
          let getPostResp := mkGetPostResp (ID post) (Title post) (Body post) in
          (JSON StatusOK (JGetPostResp getPostResp) c, s)
      end
  end.

Definition ListPostHanlder (c : Context) (s : Store) : Context * Store :=
  match GetAllPost s with
  | (_, Some err) => (AbortWithError StatusInternalServerError err c, s)
  | (posts, None) =>
      let listPostDataResps :=
        (λ post, mkListPostDataResp (ID post) (Title post) (Body post)) <$> posts in
      (JSON StatusOK (JListPostDataResps listPostDataResps) c, s)
  end.

Definition UpdatePostHanlder (c : Context) (s : Store) : Context * Store :=
  let idParam := Param "id" c in
  if decide (idParam = "") then (AbortWithStatus StatusBadRequest c, s) else
  match Atoi idParam with
  | (_, Some err) => (AbortWithError StatusBadRequest err c, s)
  | (id, None) =>
      match GetPostByID id s with
      | (_, Some err) =>
          if decide (err = ErrNotFound) then (AbortWithStatus StatusNotFound c, s)
          else (AbortWithError StatusInternalServerError err c, s)
      | (post, None) =>
          match ShouldBindJSON_UpdatePostReq c with
          | (_, Some err) => (AbortWithError StatusBadRequest err c, s)
          | (updatePostReq, None) =>
              let post := mkPost (ID post) (Title post) (upq_Body updatePostReq) in
              let post := mkPost (ID post) (upq_Title updatePostReq) (Body post) in
              match UpdatePost post s with
              | ((_, Some err), s') =>
                  (AbortWithError StatusInternalServerError err c, s')
              | ((post, None), s') =>
                  let resp := mkUpdatePostResp (ID post) (Title post) (Body post) in
                  (JSON StatusOK (JUpdatePostResp resp) c, s')
              end
          end
      end
  end.

Definition DeletePostHandler (c : Context) (s : Store) : Context * Store :=
  let idParam := Param "id" c in
  if decide (idParam = "") then (AbortWithStatus StatusBadRequest c, s) else
  match Atoi idParam with
  | (_, Some err) => (AbortWithError StatusBadRequest err c, s)
  | (id, None) =>
      match GetPostByID id s with
      | (_, Some err) =>
          if decide (err = ErrNotFound) then (AbortWithStatus StatusNotFound c, s)
          else (AbortWithError StatusInternalServerError err c, s)
      | (_, None) =>
          match DeletePostByID id s with
          | (Some err, s') => (AbortWithError StatusInternalServerError err c, s')
          | (None, s') => (SetStatus StatusNoContent c, s')
          end
      end
  end.

(** The routes registered in [main]. *)
Inductive Route : Type :=
  | POST_posts | GET_posts_id | GET_posts | PATCH_posts_id | DELETE_posts_id.

Definition serve (r : Route) : Context → Store → Context * Store :=
  match r with
  | POST_posts => NewPostHandler
  | GET_posts_id => GetPostHandler
  | GET_posts => ListPostHanlder
  | PATCH_posts_id => UpdatePostHanlder
  | DELETE_posts_id => DeletePostHandler
  end.

End Handlers.

(** *** Runs of calls to the [DB] methods *)

Inductive DBCall : Type :=
  | CallAddPost (newPost : Post)
  | CallGetPostByID (id : Z)
  | CallGetAllPost
  | CallUpdatePost (updatePost : Post)
  | CallDeletePostByID (id : Z).

(** One call: the post returned when the call is an [AddPost], and the next
    store. *)
Definition db_call (cl : DBCall) (s : Store) : option Post * Store :=
  match cl with
  | CallAddPost newPost => (Some (AddPost newPost s).1.1, (AddPost newPost s).2)
  | CallGetPostByID id => (None, s)
  | CallGetAllPost => (None, s)
  | CallUpdatePost updatePost => (None, (UpdatePost updatePost s).2)
  | CallDeletePostByID id => (None, (DeletePostByID id s).2)
  end.

(** The posts the [AddPost] calls of a run returned, in order, and the store
    the run ends in. *)
Fixpoint run_calls (cs : list DBCall) (s : Store) : list Post * Store :=
  match cs with
  | [] => ([], s)
  | cl :: cs' =>
      let r := db_call cl s in
      let rs := run_calls cs' r.2 in
      (option_list r.1 ++ rs.1, rs.2)
  end.

Definition added_IDs (cs : list DBCall) (s : Store) : list Z :=
  ID <$> (run_calls cs s).1.

Definition is_AddPost (cl : DBCall) : bool :=
  match cl with CallAddPost _ => true | _ => false end.

Definition count_AddPost (cs : list DBCall) : nat :=
  length (filter (λ cl, is_AddPost cl = true) cs).

(** Every stored post sits under its own ID. *)
Definition keyed_by_ID (s : Store) : Prop :=
  ∀ k p, inmemoryPostDB s !! k = Some p → ID p = k.

(** A decoder for the examples: it accepts the empty object only. *)
Definition sample_decode (body : string) : error + (string * string) :=
  if decide (body = "{}") then inr ("", "")
  else inl (ErrOther "unexpected end of JSON input").

(** A store for the examples: the one a first [AddPost] leaves. *)
Definition store1 : Store := (AddPost (mkPost 0 "hello" "world") init_store).2.

End Crud.

(** ** The notifier demo *)
Module Notify.

(** [type Action string] and its constants. *)
Definition Action : Type := string.
Definition ActionCreate : Action := "create".
Definition ActionUpdate : Action := "update".
Definition ActionDelete : Action := "delete".

(** Modelled from the spec: the [Post] struct of the notifier demo is not
    declared in the sources.  It is the identified title/body pair of the
    spec, with the [Author.Email] that [NotifyPostUpdated] reads. *)
Record Author : Type := mkAuthor { Email : string }.
Record Post : Type := mkPost {
  ID : Z; Title : string; Body : string; PostAuthor : Author
}.

(** [Post{}] *)
Definition Post_zero : Post := mkPost 0 "" "" (mkAuthor "").

Definition newline : string := String "010"%char EmptyString.

(** [gin.H], with the string values the handlers put in it. *)
Abbreviation H := (gmap string string).

(** [gin.Context] as [UpdateHandler] uses it: the errors attached with
    [c.Error] and the response written with [c.JSON]. *)
Record Context : Type := mkContext {
  Errors : list error;
  Response : option (Z * H)
}.

Definition new_Context : Context := mkContext [] None.

Definition Error (err : error) (c : Context) : Context :=
  mkContext (Errors c ++ [err]) (Response c).

Definition JSON (code : Z) (obj : H) (c : Context) : Context :=
  mkContext (Errors c) (Some (code, obj)).

Section Notifiers.

(** The outside world the services act on (mail servers, the messaging API). *)
Variable World : Type.

(** [interface EmailService] *)
Record EmailService : Type := mkEmailService {
  SendEmail : string → string → string → string → World → option error * World
}.

Record EmailNotifier : Type := mkEmailNotifier { emailService : EmailService }.

(** [func (n *EmailNotifier) NotifyPostUpdated] *)
Definition EmailNotifier_NotifyPostUpdated
    (n : EmailNotifier) (post : Post) (action : Action) (w : World)
  : option error * World :=
  let subject := "Post Update Notification" in
  let body :=
    "The post has been updated with the following details:" +:+ newline +:+
    "Title: " +:+ Title post +:+ newline +:+
    "Body: " +:+ Body post +:+ newline +:+
    "Action: " +:+ action in
  SendEmail (emailService n) "noreply@example.com" (Email (PostAuthor post))
            subject body w.

(** A value of [interface PostUpdateNotifier]: a [*EmailNotifier], or a value
    of any other type with the method (such as [main]'s [*LineNotifier]),
    given by the name of its dynamic type and its method. *)
Inductive PostUpdateNotifier : Type :=
  | EmailNotifierPtr (n : EmailNotifier)
  | OtherNotifier (dyn_type : string)
                  (method : Post → Action → World → option error * World).

(** Dynamic dispatch of [notifier.NotifyPostUpdated(post, action)]. *)
Definition NotifyPostUpdated (notifier : PostUpdateNotifier)
  : Post → Action → World → option error * World :=
  match notifier with
  | EmailNotifierPtr n => EmailNotifier_NotifyPostUpdated n
  | OtherNotifier _ method => method
  end.

(** [case *EmailNotifier] of a type switch. *)
Definition is_EmailNotifierPtr (notifier : PostUpdateNotifier) : bool :=
  match notifier with
  | EmailNotifierPtr _ => true
  | OtherNotifier _ _ => false
  end.

(** One call through the interface, as the handler made it. *)
Record Call : Type := mkCall {
  callee : PostUpdateNotifier;
  arg_post : Post;
  arg_action : Action;
  returned : option error
}.

(** The handlers run on the world and the trace of the calls made so far. *)
Record Run : Type := mkRun { world : World; calls : list Call }.

Definition start (w : World) : Run := mkRun w [].

Definition invoke (notifier : PostUpdateNotifier) (post : Post) (action : Action)
    (r : Run) : option error * Run :=
  let '(err, w') := NotifyPostUpdated notifier post action (world r) in
  (err, mkRun w' (calls r ++ [mkCall notifier post action err])).

Record PostHandler : Type := mkPostHandler { notifiers : list PostUpdateNotifier }.

Definition NewPostHandler (ns : list PostUpdateNotifier) : PostHandler :=
  mkPostHandler ns.

Definition status_post_updated : H := {[ "status" := "post updated" ]}.

(** *** [UpdateHandler] of the notifier demo

    The handler takes its [gin.Context] by value: the model returns the
    context as the handler leaves it.

    The [for ... range h.notifiers] loop: the flag says whether the body
    executed [return]. *)
Fixpoint range_notifiers (ns : list PostUpdateNotifier) (post : Post)
    (c : Context) (r : Run) : bool * Context * Run :=
  match ns with
  | [] => (false, c, r)
  | notifier :: ns' =>
      match invoke notifier post ActionUpdate r with
      | (Some err, r') => (true, Error err c, r')
      | (None, r') => range_notifiers ns' post c r'
      end
  end.

Definition UpdateHandler (h : PostHandler) (c : Context) (r : Run)
  : Context * Run :=
  let post := Post_zero in
  match range_notifiers (notifiers h) post c r with
  | (true, c', r') => (c', r')
  | (false, c', r') => (JSON 200 status_post_updated c', r')
  end.

(** *** [UpdateHandler] of lsp.go: the loop body is a type switch with the
    single case [*EmailNotifier]. *)
Fixpoint lsp_range_notifiers (ns : list PostUpdateNotifier) (post : Post)
    (c : Context) (r : Run) : bool * Context * Run :=
  match ns with
  | [] => (false, c, r)
  | notifier :: ns' =>
      if is_EmailNotifierPtr notifier then
        match invoke notifier post ActionUpdate r with
        | (Some err, r') => (true, Error err c, r')
        | (None, r') => lsp_range_notifiers ns' post c r'
        end
      else lsp_range_notifiers ns' post c r
  end.

Definition lsp_UpdateHandler (h : PostHandler) (c : Context) (r : Run)
  : Context * Run :=
  let post := Post_zero in
  match lsp_range_notifiers (notifiers h) post c r with
  | (true, c', r') => (c', r')
  | (false, c', r') => (JSON 200 status_post_updated c', r')
  end.

End Notifiers.

Arguments EmailNotifierPtr {World} n.
Arguments OtherNotifier {World} dyn_type method.
Arguments mkCall {World} callee arg_post arg_action returned.
Arguments callee {World} c.
Arguments arg_post {World} c.
Arguments arg_action {World} c.
Arguments returned {World} c.
Arguments mkRun {World} world calls.
Arguments world {World} r.
Arguments calls {World} r.
Arguments start {World} w.
Arguments notifiers {World} p.
Arguments NewPostHandler {World} ns.
Arguments is_EmailNotifierPtr {World} notifier.
Arguments NotifyPostUpdated {World} notifier _ _ _.
Arguments invoke {World} notifier post action r.
Arguments UpdateHandler {World} h c r.
Arguments lsp_UpdateHandler {World} h c r.
Arguments range_notifiers {World} ns post c r.
Arguments lsp_range_notifiers {World} ns post c r.

(** *** Sample services: the world is the list of messages sent so far *)

Definition outbox : Type := list (string * string).

(** A mail service that delivers, and one that is down. *)
Definition mailer_up : EmailService outbox :=
  mkEmailService outbox
    (λ sender recipient subject body w, (None, w ++ [("mail", subject)])).

Definition mailer_down : EmailService outbox :=
  mkEmailService outbox
    (λ sender recipient subject body w, (Some (ErrOther "smtp: down"), w)).

(** Stand-ins for [main]'s [*LineNotifier], whose type is not in the sources. *)
Definition line_up : PostUpdateNotifier outbox :=
  OtherNotifier "*LineNotifier" (λ post action w, (None, w ++ [("line", action)])).

Definition line_down : PostUpdateNotifier outbox :=
  OtherNotifier "*LineNotifier" (λ post action w, (Some (ErrOther "line: down"), w)).

End Notify.

(** ** Runs of requests against the CRUD service *)
Module CrudRuns.
Import GoInt Crud.

(** A request: the route it matched and the context the router built. *)
Definition Request : Type := Route * Context.

Section Serving.

Variable decode : string → error + (string * string).

(** The requests are served one after the other on the package-level store:
    the contexts the handlers leave, and the store at the end. *)
Fixpoint serve_all (reqs : list Request) (s : Store) : list Context * Store :=
  match reqs with
  | [] => ([], s)
  | (r, c) :: reqs' =>
      let res := serve decode r c s in
      let rest := serve_all reqs' res.2 in
      (res.1 :: rest.1, rest.2)
  end.

End Serving.

(** Every stored post sits under its own ID, and every key in use is an ID
    the counter has handed out. *)
Definition ids_issued (s : Store) : Prop :=
  keyed_by_ID s
  ∧ 0 <= idPostCounter s
  ∧ ∀ k, is_Some (inmemoryPostDB s !! k) → 0 < k <= idPostCounter s.

End CrudRuns.

(** ** The world of the notifier demo, replayed from a trace *)
Module NotifyRuns.
Import Notify.

(** The world after the calls of a trace, made in order from [w]. *)
Fixpoint replay {World : Type} (w : World) (cls : list (Call World)) : World :=
  match cls with
  | [] => w
  | cl :: cls' =>
      replay (NotifyPostUpdated (callee cl) (arg_post cl) (arg_action cl) w).2 cls'
  end.

(** A call of [UpdateHandler].  The method takes its [gin.Context] by value:
    the handler works on a copy of the caller's context.  The copy shares the
    response writer (its [Writer] points into the original), so what [c.JSON]
    writes is the response of the request; the errors [c.Error] appends go to
    the [Errors] of the copy, and are gone when the handler returns. *)
Definition call_UpdateHandler {World : Type} (h : PostHandler World)
    (c : Context) (r : Run World) : Context * Run World :=
  let res := UpdateHandler h c r in
  (mkContext (Errors c) (Response res.1), res.2).

(** A trace is faithful from [w] when each call returned what the method of
    its notifier returns in the world the calls before it left. *)
Fixpoint faithful {World : Type} (w : World) (cls : list (Call World)) : Prop :=
  match cls with
  | [] => True
  | cl :: cls' =>
      returned cl
      = (NotifyPostUpdated (callee cl) (arg_post cl) (arg_action cl) w).1
      ∧ faithful (NotifyPostUpdated (callee cl) (arg_post cl) (arg_action cl) w).2
                 cls'
  end.

(** The body of the mail [NotifyPostUpdated] writes for the zero post and
    [ActionUpdate]. *)
Definition blank_update_body : string :=
  "The post has been updated with the following details:" +:+ newline +:+
  "Title: " +:+ newline +:+ "Body: " +:+ newline +:+ "Action: update".

End NotifyRuns.

(** ** JSON binding: [encoding/json]'s [Decoder.Decode] as [ShouldBindJSON]
    runs it

    [c.ShouldBindJSON(&req)] is [json.NewDecoder(body).Decode(&req)]: the
    decoder reads the first JSON value of the body, checking its syntax byte by
    byte with the scanner below, leaves what follows that value unread, and
    unmarshals the value into the struct.  The request structs have the two
    string fields [title] and [body] and no validation tags.

    The texts of the errors are abridged: the offending byte, the offset and
    the name of the Go type are left out. *)
Module GoJSON.

Definition quote : ascii := "034"%char.
Definition backslash : ascii := "092"%char.

Definition code (c : ascii) : Z := Z.of_N (N_of_ascii c).

Definition isSpace (c : ascii) : bool :=
  match c with
  | " "%char | "009"%char | "013"%char | "010"%char => true
  | _ => false
  end.

Definition isDigit (c : ascii) : bool := (48 <=? code c) && (code c <=? 57).
Definition isDigit19 (c : ascii) : bool := (49 <=? code c) && (code c <=? 57).

Definition hexVal (c : ascii) : option Z :=
  let n := code c in
  if (48 <=? n) && (n <=? 57) then Some (n - 48)
  else if (97 <=? n) && (n <=? 102) then Some (n - 87)
  else if (65 <=? n) && (n <=? 70) then Some (n - 55)
  else None.

(** *** The scanner (scanner.go) *)

Inductive parseState : Type := parseObjectKey | parseObjectValue | parseArrayValue.

Inductive opcode : Type :=
  | scanContinue | scanBeginLiteral | scanBeginObject | scanObjectKey
  | scanObjectValue | scanEndObject | scanBeginArray | scanArrayValue
  | scanEndArray | scanSkipSpace | scanEnd | scanError.

Inductive stepFn : Type :=
  | stateBeginValueOrEmpty | stateBeginValue | stateBeginStringOrEmpty
  | stateBeginString | stateEndValue | stateEndTop
  | stateInString | stateInStringEsc
  | stateInStringEscU | stateInStringEscU1 | stateInStringEscU12
  | stateInStringEscU123
  | stateNeg | state1 | state0 | stateDot | stateDot0
  | stateE | stateESign | stateE0
  | stateT | stateTr | stateTru
  | stateF | stateFa | stateFal | stateFals
  | stateN | stateNu | stateNul
  | stateError.

(** [parseStack] is [s.parseState], innermost first; [err] is the context of
    [s.err]. *)
Record scanner : Type := mkScanner {
  step : stepFn;
  parseStack : list parseState;
  err : option string;
  endTop : bool
}.

Definition maxNestingDepth : Z := 10000.

(** [s.reset()] *)
Definition reset : scanner := mkScanner stateBeginValue [] None false.

Definition goto (st : stepFn) (s : scanner) : scanner :=
  mkScanner st (parseStack s) (err s) (endTop s).

(** [s.error(c, context)] *)
Definition scan_error (s : scanner) (context : string) : scanner * opcode :=
  (mkScanner stateError (parseStack s) (Some context) (endTop s), scanError).

(** [s.step = st; return s.pushParseState(c, newParseState, successState)] *)
Definition pushParseState (st : stepFn) (s : scanner) (newParseState : parseState)
    (successState : opcode) : scanner * opcode :=
  let s' := mkScanner st (newParseState :: parseStack s) (err s) (endTop s) in
  if Z.of_nat (length (parseStack s')) <=? maxNestingDepth then (s', successState)
  else scan_error s' "exceeded max depth".

Definition popParseState (s : scanner) : scanner :=
  match parseStack s with
  | [] => s
  | _ :: rest =>
      match rest with
      | [] => mkScanner stateEndTop rest (err s) true
      | _ => mkScanner stateEndValue rest (err s) (endTop s)
      end
  end.

Definition do_stateEndTop (s : scanner) (c : ascii) : scanner * opcode :=
  if isSpace c then (s, scanEnd)
  else ((scan_error s "after top-level value").1, scanEnd).

Definition do_stateEndValue (s : scanner) (c : ascii) : scanner * opcode :=
  match parseStack s with
  | [] => do_stateEndTop (mkScanner stateEndTop [] (err s) true) c
  | ps :: rest =>
      if isSpace c then (goto stateEndValue s, scanSkipSpace)
      else
        match ps with
        | parseObjectKey =>
            if Ascii.eqb c ":" then
              (mkScanner stateBeginValue (parseObjectValue :: rest) (err s) (endTop s),
               scanObjectKey)
            else scan_error s "after object key"
        | parseObjectValue =>
            if Ascii.eqb c "," then
              (mkScanner stateBeginString (parseObjectKey :: rest) (err s) (endTop s),
               scanObjectValue)
            else if Ascii.eqb c "}" then (popParseState s, scanEndObject)
            else scan_error s "after object key:value pair"
        | parseArrayValue =>
            if Ascii.eqb c "," then (goto stateBeginValue s, scanArrayValue)
            else if Ascii.eqb c "]" then (popParseState s, scanEndArray)
            else scan_error s "after array element"
        end
  end.

Definition do_stateBeginValue (s : scanner) (c : ascii) : scanner * opcode :=
  if isSpace c then (s, scanSkipSpace)
  else if Ascii.eqb c "{" then
    pushParseState stateBeginStringOrEmpty s parseObjectKey scanBeginObject
  else if Ascii.eqb c "[" then
    pushParseState stateBeginValueOrEmpty s parseArrayValue scanBeginArray
  else if Ascii.eqb c quote then (goto stateInString s, scanBeginLiteral)
  else if Ascii.eqb c "-" then (goto stateNeg s, scanBeginLiteral)
  else if Ascii.eqb c "0" then (goto state0 s, scanBeginLiteral)
  else if Ascii.eqb c "t" then (goto stateT s, scanBeginLiteral)
  else if Ascii.eqb c "f" then (goto stateF s, scanBeginLiteral)
  else if Ascii.eqb c "n" then (goto stateN s, scanBeginLiteral)
  else if isDigit19 c then (goto state1 s, scanBeginLiteral)
  else scan_error s "looking for beginning of value".

Definition do_stateBeginValueOrEmpty (s : scanner) (c : ascii) : scanner * opcode :=
  if isSpace c then (s, scanSkipSpace)
  else if Ascii.eqb c "]" then do_stateEndValue s c
  else do_stateBeginValue s c.

Definition do_stateBeginString (s : scanner) (c : ascii) : scanner * opcode :=
  if isSpace c then (s, scanSkipSpace)
  else if Ascii.eqb c quote then (goto stateInString s, scanBeginLiteral)
  else scan_error s "looking for beginning of object key string".

Definition do_stateBeginStringOrEmpty (s : scanner) (c : ascii) : scanner * opcode :=
  if isSpace c then (s, scanSkipSpace)
  else if Ascii.eqb c "}" then
    do_stateEndValue
      (mkScanner (step s) (parseObjectValue :: tail (parseStack s)) (err s) (endTop s)) c
  else do_stateBeginString s c.

Definition do_stateInString (s : scanner) (c : ascii) : scanner * opcode :=
  if Ascii.eqb c quote then (goto stateEndValue s, scanContinue)
  else if Ascii.eqb c backslash then (goto stateInStringEsc s, scanContinue)
  else if code c <? 32 then scan_error s "in string literal"
  else (s, scanContinue).

Definition do_stateInStringEsc (s : scanner) (c : ascii) : scanner * opcode :=
  if Ascii.eqb c "b" || Ascii.eqb c "f" || Ascii.eqb c "n" || Ascii.eqb c "r"
     || Ascii.eqb c "t" || Ascii.eqb c backslash || Ascii.eqb c "/"
     || Ascii.eqb c quote
  then (goto stateInString s, scanContinue)
  else if Ascii.eqb c "u" then (goto stateInStringEscU s, scanContinue)
  else scan_error s "in string escape code".

Definition do_hex (next : stepFn) (s : scanner) (c : ascii) : scanner * opcode :=
  match hexVal c with
  | Some _ => (goto next s, scanContinue)
  | None => scan_error s "in \u hexadecimal character escape"
  end.

Definition do_state0 (s : scanner) (c : ascii) : scanner * opcode :=
  if Ascii.eqb c "." then (goto stateDot s, scanContinue)
  else if Ascii.eqb c "e" || Ascii.eqb c "E" then (goto stateE s, scanContinue)
  else do_stateEndValue s c.

Definition do_state1 (s : scanner) (c : ascii) : scanner * opcode :=
  if isDigit c then (goto state1 s, scanContinue) else do_state0 s c.

Definition do_stateNeg (s : scanner) (c : ascii) : scanner * opcode :=
  if Ascii.eqb c "0" then (goto state0 s, scanContinue)
  else if isDigit19 c then (goto state1 s, scanContinue)
  else scan_error s "in numeric literal".

Definition do_stateDot (s : scanner) (c : ascii) : scanner * opcode :=
  if isDigit c then (goto stateDot0 s, scanContinue)
  else scan_error s "after decimal point in numeric literal".

Definition do_stateDot0 (s : scanner) (c : ascii) : scanner * opcode :=
  if isDigit c then (s, scanContinue)
  else if Ascii.eqb c "e" || Ascii.eqb c "E" then (goto stateE s, scanContinue)
  else do_stateEndValue s c.

Definition do_stateESign (s : scanner) (c : ascii) : scanner * opcode :=
  if isDigit c then (goto stateE0 s, scanContinue)
  else scan_error s "in exponent of numeric literal".

Definition do_stateE (s : scanner) (c : ascii) : scanner * opcode :=
  if Ascii.eqb c "+" || Ascii.eqb c "-" then (goto stateESign s, scanContinue)
  else do_stateESign s c.

Definition do_stateE0 (s : scanner) (c : ascii) : scanner * opcode :=
  if isDigit c then (s, scanContinue) else do_stateEndValue s c.

(** One letter of [true], [false] or [null]. *)
Definition do_letter (want : ascii) (next : stepFn) (context : string)
    (s : scanner) (c : ascii) : scanner * opcode :=
  if Ascii.eqb c want then (goto next s, scanContinue) else scan_error s context.

(** [s.step(s, c)] *)
Definition scan_step (s : scanner) (c : ascii) : scanner * opcode :=
  match step s with
  | stateBeginValueOrEmpty => do_stateBeginValueOrEmpty s c
  | stateBeginValue => do_stateBeginValue s c
  | stateBeginStringOrEmpty => do_stateBeginStringOrEmpty s c
  | stateBeginString => do_stateBeginString s c
  | stateEndValue => do_stateEndValue s c
  | stateEndTop => do_stateEndTop s c
  | stateInString => do_stateInString s c
  | stateInStringEsc => do_stateInStringEsc s c
  | stateInStringEscU => do_hex stateInStringEscU1 s c
  | stateInStringEscU1 => do_hex stateInStringEscU12 s c
  | stateInStringEscU12 => do_hex stateInStringEscU123 s c
  | stateInStringEscU123 => do_hex stateInString s c
  | stateNeg => do_stateNeg s c
  | state1 => do_state1 s c
  | state0 => do_state0 s c
  | stateDot => do_stateDot s c
  | stateDot0 => do_stateDot0 s c
  | stateE => do_stateE s c
  | stateESign => do_stateESign s c
  | stateE0 => do_stateE0 s c
  | stateT => do_letter "r" stateTr "in literal true (expecting 'r')" s c
  | stateTr => do_letter "u" stateTru "in literal true (expecting 'u')" s c
  | stateTru => do_letter "e" stateEndValue "in literal true (expecting 'e')" s c
  | stateF => do_letter "a" stateFa "in literal false (expecting 'a')" s c
  | stateFa => do_letter "l" stateFal "in literal false (expecting 'l')" s c
  | stateFal => do_letter "s" stateFals "in literal false (expecting 's')" s c
  | stateFals => do_letter "e" stateEndValue "in literal false (expecting 'e')" s c
  | stateN => do_letter "u" stateNu "in literal null (expecting 'u')" s c
  | stateNu => do_letter "l" stateNul "in literal null (expecting 'l')" s c
  | stateNul => do_letter "l" stateEndValue "in literal null (expecting 'l')" s c
  | stateError => (s, scanError)
  end.

(** [s.eof()] *)
Definition scan_eof (s : scanner) : opcode :=
  match err s with
  | Some _ => scanError
  | None =>
      if endTop s then scanEnd
      else if endTop (scan_step s " ").1 then scanEnd else scanError
  end.

(** [checkValid], which is [json.Valid]: the whole text is one JSON value. *)
Fixpoint checkValid_from (s : scanner) (data : string) : bool :=
  match data with
  | EmptyString =>
      match scan_eof s with scanError => false | _ => true end
  | String c data' =>
      match scan_step s c with
      | (_, scanError) => false
      | (s', _) => checkValid_from s' data'
      end
  end.

Definition Valid (data : string) : bool := checkValid_from reset data.

(** *** [Decoder.readValue] (stream.go)

    The bytes are fed to the scanner until it reports the end of the first
    value; [scanp] counts the bytes of that value.  An object or an array ends
    at its closing bracket, a string at its closing quote, a number or a
    literal at the first byte that cannot go on with it: what that byte is
    does not matter.  [nonSpace] says whether the body holds a byte that is
    not white space. *)
Fixpoint nonSpace (b : string) : bool :=
  match b with
  | EmptyString => false
  | String c b' => negb (isSpace c) || nonSpace b'
  end.

Definition io_EOF : error := ErrOther "EOF".
Definition io_ErrUnexpectedEOF : error := ErrOther "unexpected EOF".
Definition SyntaxError (context : string) : error :=
  ErrOther ("invalid character " +:+ context).
Definition UnmarshalTypeError (value : string) : error :=
  ErrOther ("json: cannot unmarshal " +:+ value).

Definition scanner_error (s : scanner) : error :=
  SyntaxError (default "" (err s)).

Fixpoint readValue_from (nonspace : bool) (s : scanner) (buf : string) (scanp : nat)
  : error + nat :=
  match buf with
  | EmptyString =>
      (* the read met the end of the body *)
      match scan_step s " " with
      | (_, scanEnd) => inr scanp
      | _ => inl (if nonspace then io_ErrUnexpectedEOF else io_EOF)
      end
  | String c buf' =>
      match scan_step s c with
      | (_, scanEnd) => inr scanp
      | (s', scanEndObject) | (s', scanEndArray) =>
          match do_stateEndValue s' " " with
          | (_, scanEnd) => inr (S scanp)
          | _ => readValue_from nonspace s' buf' (S scanp)
          end
      | (s', scanError) => inl (scanner_error s')
      | (s', _) => readValue_from nonspace s' buf' (S scanp)
      end
  end.

Definition readValue (body : string) : error + nat :=
  readValue_from (nonSpace body) reset body 0.

Fixpoint take_bytes (n : nat) (b : string) : string :=
  match n, b with
  | S n', String c b' => String c (take_bytes n' b')
  | _, _ => EmptyString
  end.

Fixpoint drop_bytes (n : nat) (b : string) : string :=
  match n, b with
  | S n', String c b' => drop_bytes n' b'
  | _, _ => b
  end.

(** *** [unquoteBytes] (decode.go): the text of a string literal *)

(** [utf8.EncodeRune] *)
Definition byte_of (n : Z) : ascii := ascii_of_N (Z.to_N n).

Definition EncodeRune (r : Z) : string :=
  if r <? 128 then String (byte_of r) ""
  else if r <? 2048 then
    String (byte_of (192 + r / 64)) (String (byte_of (128 + r mod 64)) "")
  else if r <? 65536 then
    String (byte_of (224 + r / 4096))
      (String (byte_of (128 + (r / 64) mod 64)) (String (byte_of (128 + r mod 64)) ""))
  else
    String (byte_of (240 + r / 262144))
      (String (byte_of (128 + (r / 4096) mod 64))
         (String (byte_of (128 + (r / 64) mod 64))
            (String (byte_of (128 + r mod 64)) ""))).

Definition RuneError : Z := 65533.

Definition between (lo hi : Z) (c : ascii) : bool := (lo <=? code c) && (code c <=? hi).

(** [utf8.DecodeRune] on bytes that start with a non-ASCII one: the size of
    the encoding at the head when it is well formed, and 1 (for [RuneError])
    when it is not. *)
Definition utf8_size (b : string) : nat :=
  match b with
  | String c0 (String c1 rest) =>
      let n0 := code c0 in
      if (194 <=? n0) && (n0 <=? 223) then
        if between 128 191 c1 then 2%nat else 1%nat
      else if (224 <=? n0) && (n0 <=? 239) then
        let lo := if n0 =? 224 then 160 else 128 in
        let hi := if n0 =? 237 then 159 else 191 in
        match rest with
        | String c2 _ =>
            if between lo hi c1 && between 128 191 c2 then 3%nat else 1%nat
        | _ => 1%nat
        end
      else if (240 <=? n0) && (n0 <=? 244) then
        let lo := if n0 =? 240 then 144 else 128 in
        let hi := if n0 =? 244 then 143 else 191 in
        match rest with
        | String c2 (String c3 _) =>
            if between lo hi c1 && between 128 191 c2 && between 128 191 c3
            then 4%nat else 1%nat
        | _ => 1%nat
        end
      else 1%nat
  | _ => 1%nat
  end.

(** [getu4]: the rune of a leading [\uXXXX], and what follows it. *)
Definition getu4 (b : string) : option (Z * string) :=
  match b with
  | String e (String u (String h1 (String h2 (String h3 (String h4 rest))))) =>
      if Ascii.eqb e backslash && Ascii.eqb u "u" then
        match hexVal h1, hexVal h2, hexVal h3, hexVal h4 with
        | Some a, Some b, Some c, Some d =>
            Some (((a * 16 + b) * 16 + c) * 16 + d, rest)
        | _, _, _, _ => None
        end
      else None
  | _ => None
  end.

(** [utf16.IsSurrogate] and [utf16.DecodeRune] *)
Definition IsSurrogate (r : Z) : bool := (55296 <=? r) && (r <? 57344).

Definition utf16_DecodeRune (r1 r2 : Z) : Z :=
  if (55296 <=? r1) && (r1 <? 56320) && (56320 <=? r2) && (r2 <? 57344)
  then (r1 - 55296) * 1024 + (r2 - 56320) + 65536
  else RuneError.

Definition unescape (c : ascii) : option ascii :=
  if Ascii.eqb c quote || Ascii.eqb c backslash || Ascii.eqb c "/"
     || Ascii.eqb c "'" then Some c
  else if Ascii.eqb c "b" then Some "008"%char
  else if Ascii.eqb c "f" then Some "012"%char
  else if Ascii.eqb c "n" then Some "010"%char
  else if Ascii.eqb c "r" then Some "013"%char
  else if Ascii.eqb c "t" then Some "009"%char
  else None.

(** The loop of [unquoteBytes] over the bytes between the quotes; [None] is
    its [ok = false].  Every turn takes at least one byte, so the length of
    the text is fuel enough. *)
Fixpoint unquote_loop (fuel : nat) (b : string) : option string :=
  match fuel with
  | O => match b with EmptyString => Some "" | _ => None end
  | S fuel' =>
      match b with
      | EmptyString => Some ""
      | String c rest =>
          if Ascii.eqb c backslash then
            match rest with
            | String e rest' =>
                if Ascii.eqb e "u" then
                  match getu4 b with
                  | None => None
                  | Some (rr, after) =>
                      if IsSurrogate rr then
                        match getu4 after with
                        | Some (rr1, after') =>
                            if utf16_DecodeRune rr rr1 =? RuneError then
                              String.append (EncodeRune RuneError) <$> unquote_loop fuel' after
                            else
                              String.append (EncodeRune (utf16_DecodeRune rr rr1))
                                <$> unquote_loop fuel' after'
                        | None =>
                            String.append (EncodeRune RuneError) <$> unquote_loop fuel' after
                        end
                      else String.append (EncodeRune rr) <$> unquote_loop fuel' after
                  end
                else
                  match unescape e with
                  | Some x => String x <$> unquote_loop fuel' rest'
                  | None => None
                  end
            | EmptyString => None
            end
          else if Ascii.eqb c quote || (code c <? 32) then None
          else if code c <? 128 then String c <$> unquote_loop fuel' rest
          else
            match utf8_size b with
            | 1%nat => String.append (EncodeRune RuneError) <$> unquote_loop fuel' rest
            | n => String.append (take_bytes n b) <$> unquote_loop fuel' (drop_bytes n b)
            end
      end
  end.

Definition unquoteBytes (lit : string) : option string :=
  match lit with
  | String q inner =>
      if Ascii.eqb q quote then
        match String.length inner with
        | O => None
        | S n =>
            if decide (drop_bytes n inner = String quote "") then
              unquote_loop (S n) (take_bytes n inner)
            else None
        end
      else None
  | EmptyString => None
  end.

(** *** [decodeState] (decode.go), for a struct with the string fields
    [title] and [body] *)

Inductive field : Type := fieldTitle | fieldBody.

(** [foldName]: ASCII letters go to upper case.  (A rune outside ASCII folds
    to an ASCII letter for K and S only, which the two names do not have, so
    a key with such a rune matches neither.) *)
Definition upper (c : ascii) : ascii :=
  if between 97 122 c then byte_of (code c - 32) else c.

Fixpoint foldName (key : string) : string :=
  match key with
  | EmptyString => EmptyString
  | String c key' => String (upper c) (foldName key')
  end.

(** The field a key names: by its exact name, else by its folded name. *)
Definition findField (key : string) : option field :=
  if decide (key = "title") then Some fieldTitle
  else if decide (key = "body") then Some fieldBody
  else if decide (foldName key = "TITLE") then Some fieldTitle
  else if decide (foldName key = "BODY") then Some fieldBody
  else None.

Record decodeState : Type := mkDecodeState {
  scan : scanner;
  title : string;
  body : string;
  savedError : option error
}.

(** [d.saveError]: the first error is the one kept. *)
Definition saveError (e : error) (d : decodeState) : decodeState :=
  match savedError d with
  | Some _ => d
  | None => mkDecodeState (scan d) (title d) (body d) (Some e)
  end.

Definition setField (f : field) (v : string) (d : decodeState) : decodeState :=
  match f with
  | fieldTitle => mkDecodeState (scan d) v (body d) (savedError d)
  | fieldBody => mkDecodeState (scan d) (title d) v (savedError d)
  end.

Definition withScan (s : scanner) (d : decodeState) : decodeState :=
  mkDecodeState s (title d) (body d) (savedError d).

(** Where [d.value] and [d.object] stand between two bytes. *)
Inductive mode : Type :=
  | atValue                                   (* before the value for the struct *)
  | atKey                                     (* before a key, or the closing brace *)
  | inKey (lit : string)                      (* in the literal of a key *)
  | atColon (f : option field)                (* after a key *)
  | atMember (f : option field)               (* before the value of a key *)
  | inString (f : option field) (lit : string)(* in a string literal value *)
  | inLiteral                                 (* in a number, true, false or null *)
  | skipping (depth : nat)                    (* [d.skip()] *)
  | atNext                                    (* after the value of a key *)
  | finished
  | outOfSync.                                (* [panic(phasePanicMsg)] *)

(** [d.literalStore] of a literal that starts with [c] and is no string, into
    a value that is no string either way: [null] is ignored, the rest is a
    type error. *)
Definition storeOther (c : ascii) (d : decodeState) : decodeState :=
  if Ascii.eqb c "n" then d
  else if Ascii.eqb c "t" || Ascii.eqb c "f" then saveError (UnmarshalTypeError "bool") d
  else saveError (UnmarshalTypeError "number") d.

Definition whenField (f : option field) (g : decodeState → decodeState)
    (d : decodeState) : decodeState :=
  match f with Some _ => g d | None => d end.

Definition snoc (lit : string) (c : ascii) : string := lit +:+ String c "".

Definition decode_byte (m : mode) (d : decodeState) (c : ascii) : mode * decodeState :=
  let '(s', op) := scan_step (scan d) c in
  let d := withScan s' d in
  match m with
  | atValue =>
      match op with
      | scanSkipSpace => (atValue, d)
      | scanBeginObject => (atKey, d)
      | scanBeginArray => (skipping 1, saveError (UnmarshalTypeError "array") d)
      | scanBeginLiteral =>
          if Ascii.eqb c quote
          then (finished, saveError (UnmarshalTypeError "string") d)
          else (finished, storeOther c d)
      | _ => (outOfSync, d)
      end
  | atKey =>
      match op with
      | scanSkipSpace => (atKey, d)
      | scanEndObject => (finished, d)
      | scanBeginLiteral => (inKey (String c ""), d)
      | _ => (outOfSync, d)
      end
  | inKey lit =>
      match op with
      | scanContinue =>
          match step s' with
          | stateEndValue =>
              match unquoteBytes (snoc lit c) with
              | Some key => (atColon (findField key), d)
              | None => (outOfSync, d)
              end
          | _ => (inKey (snoc lit c), d)
          end
      | _ => (outOfSync, d)
      end
  | atColon f =>
      match op with
      | scanSkipSpace => (atColon f, d)
      | scanObjectKey => (atMember f, d)
      | _ => (outOfSync, d)
      end
  | atMember f =>
      match op with
      | scanSkipSpace => (atMember f, d)
      | scanBeginLiteral =>
          if Ascii.eqb c quote then (inString f (String c ""), d)
          else (inLiteral, whenField f (storeOther c) d)
      | scanBeginObject =>
          (skipping 2, whenField f (saveError (UnmarshalTypeError "object")) d)
      | scanBeginArray =>
          (skipping 2, whenField f (saveError (UnmarshalTypeError "array")) d)
      | _ => (outOfSync, d)
      end
  | inString f lit =>
      match op with
      | scanContinue =>
          match step s' with
          | stateEndValue =>
              match unquoteBytes (snoc lit c), f with
              | Some v, Some fld => (atNext, setField fld v d)
              | Some _, None => (atNext, d)
              | None, _ => (outOfSync, d)
              end
          | _ => (inString f (snoc lit c), d)
          end
      | _ => (outOfSync, d)
      end
  | inLiteral =>
      match op with
      | scanContinue => (inLiteral, d)
      | scanSkipSpace => (atNext, d)
      | scanObjectValue => (atKey, d)
      | scanEndObject => (finished, d)
      | _ => (outOfSync, d)
      end
  | skipping depth =>
      if (length (parseStack s') <? depth)%nat
      then (match depth with 1%nat => finished | _ => atNext end, d)
      else (skipping depth, d)
  | atNext =>
      match op with
      | scanSkipSpace => (atNext, d)
      | scanObjectValue => (atKey, d)
      | scanEndObject => (finished, d)
      | _ => (outOfSync, d)
      end
  | finished => (finished, d)
  | outOfSync => (outOfSync, d)
  end.

Fixpoint decode_bytes (m : mode) (d : decodeState) (data : string)
  : mode * decodeState :=
  match data with
  | EmptyString => (m, d)
  | String c data' =>
      let '(m', d') := decode_byte m d c in decode_bytes m' d' data'
  end.

Definition phasePanic : error :=
  ErrOther "JSON decoder out of sync - data changing underfoot?".

(** [d.unmarshal(&req)] on the bytes of one value, into a zero struct: the
    title and the body, or the error saved. *)
Definition unmarshal (data : string) : error + (string * string) :=
  let '(m, d) := decode_bytes atValue (mkDecodeState reset "" "" None) data in
  match m, savedError d with
  | outOfSync, _ => inl phasePanic
  | _, Some e => inl e
  | _, None => inr (title d, body d)
  end.

(** [json.NewDecoder(body).Decode(&req)], which is what [ShouldBindJSON]
    returns for a struct without validation tags. *)
Definition Decode (body : string) : error + (string * string) :=
  match readValue body with
  | inl e => inl e
  | inr n => unmarshal (take_bytes n body)
  end.

(** Texts with quotes in them, for the examples. *)
Definition q (s : string) : string := String quote s +:+ String quote "".

End GoJSON.

(** * Properties *)

(** ** Facts about [int] and [strconv.Atoi] *)
Module IntFacts.
Import GoInt Strconv.

Lemma int_wrap_id z : int_min <= z <= int_max → int_wrap z = z.
Proof.
  unfold int_wrap, int_min, int_max, int_modulus. intros H.
  rewrite Z.mod_small; lia.
Qed.

Lemma int_wrap_range z : int_min <= int_wrap z <= int_max.
Proof.
  unfold int_wrap, int_min, int_max, int_modulus.
  pose proof (Z.mod_pos_bound (z - -9223372036854775808) 18446744073709551616).
  lia.
Qed.

Lemma incr_below_max x : int_min <= x < int_max → incr x = x + 1.
Proof. intros H. unfold incr. apply int_wrap_id. lia. Qed.

Lemma incr_at_max : incr int_max = int_min.
Proof. reflexivity. Qed.

Lemma cmp_Compare_le x y : cmp_Compare x y <= 0 ↔ x <= y.
Proof.
  unfold cmp_Compare.
  destruct (Z.ltb_spec x y); [lia|]. destruct (Z.ltb_spec y x); lia.
Qed.

Lemma ParseUint_not_digits acc s n :
  all_digits s = false → ParseUint acc s ≠ UintOk n.
Proof.
  revert acc. induction s as [|c s IH]; intros acc; [done|].
  simpl. destruct (digit_val c) as [d|] eqn:Hd; [|done].
  rewrite bool_decide_eq_true_2 by eauto. simpl. intros Hs.
  destruct (uint64_cutoff <=? acc); [done|].
  destruct (uint64_max <? acc * 10 + d); [done|]. by apply IH.
Qed.

Lemma ParseUint_digits acc s : all_digits s = true → ParseUint acc s ≠ UintSyntax.
Proof.
  revert acc. induction s as [|c s IH]; intros acc; [done|].
  simpl. intros [Hc Hs]%andb_true_iff.
  apply bool_decide_eq_true_1 in Hc as [d Hd]. rewrite Hd.
  destruct (uint64_cutoff <=? acc); [done|].
  destruct (uint64_max <? acc * 10 + d); [done|]. by apply IH.
Qed.

Lemma Atoi_non_numeric s : is_numeric s = false → ∃ v e, Atoi s = (v, Some e).
Proof.
  unfold is_numeric, Atoi. destruct (split_sign s) as [neg ds]. simpl.
  destruct ds as [|c ds']; [eauto|].
  rewrite bool_decide_eq_false_2 by done. rewrite andb_true_l. intros Hd.
  destruct (ParseUint 0 (String c ds')) as [n| |] eqn:Hp; [|eauto..].
  by apply ParseUint_not_digits with (acc := 0) (n := n) in Hd.
Qed.

Lemma Atoi_ok_range s v : Atoi s = (v, None) → int_min <= v <= int_max.
Proof.
  unfold Atoi. destruct (split_sign s) as [neg ds].
  destruct ds as [|c ds']; [done|].
  destruct (ParseUint 0 (String c ds')) as [n| |]; [|done..].
  destruct (in_int_range _) eqn:Hr; [|done].
  intros [= <-]. unfold in_int_range in Hr. lia.
Qed.

(** On a numeric string [Atoi] fails only when the value does not fit. *)
Lemma Atoi_numeric s :
  is_numeric s = true →
  (Atoi s).2 = None ∨ (Atoi s).2 = Some (ErrRange "Atoi" s).
Proof.
  unfold is_numeric, Atoi. destruct (split_sign s) as [neg ds]. simpl.
  intros [Hne Hd]%andb_true_iff.
  destruct ds as [|c ds']; [done|].
  pose proof (ParseUint_digits 0 _ Hd) as Hp.
  destruct (ParseUint 0 (String c ds')) as [n| |]; [|done|auto].
  destruct (in_int_range _); auto.
Qed.

Example Atoi_42 : Atoi "42" = (42, None).
Proof. reflexivity. Qed.
Example Atoi_neg7 : Atoi "-7" = (-7, None).
Proof. reflexivity. Qed.
Example Atoi_abc : Atoi "abc" = (0, Some (ErrSyntax "Atoi" "abc")).
Proof. reflexivity. Qed.
Example Atoi_empty : Atoi "" = (0, Some (ErrSyntax "Atoi" "")).
Proof. reflexivity. Qed.
Example Atoi_big :
  Atoi "9223372036854775808"
  = (int_max, Some (ErrRange "Atoi" "9223372036854775808")).
Proof. reflexivity. Qed.

(** A digit run that leaves 64 bits is a range error before the scan reaches
    the byte that is no digit; one that only leaves [int] is read to the end. *)
Example Atoi_overflow_then_letter :
  Atoi "99999999999999999999x"
  = (int_max, Some (ErrRange "Atoi" "99999999999999999999x")).
Proof. reflexivity. Qed.
Example Atoi_big_then_letter :
  Atoi "9223372036854775808x"
  = (0, Some (ErrSyntax "Atoi" "9223372036854775808x")).
Proof. reflexivity. Qed.
Example Atoi_min : Atoi "-9223372036854775808" = (int_min, None).
Proof. reflexivity. Qed.

End IntFacts.

(** ** The binder at work *)
Module JSONFacts.
Import GoJSON.

(** The two fields, in any case of the letters, with escapes, and with keys
    the struct does not have. *)
Example Decode_fields :
  Decode ("{" +:+ q "title" +:+ ":" +:+ q "a" +:+ ", " +:+ q "BODY" +:+ " : "
          +:+ q "b" +:+ "," +:+ q "more" +:+ ":[1,{}]}")
  = inr ("a", "b").
Proof. vm_compute. reflexivity. Qed.

Example Decode_escapes :
  Decode ("{" +:+ q (String backslash "u0074itle") +:+ ":"
          +:+ q ("x" +:+ String backslash "u0041" +:+ String backslash "/") +:+ "}")
  = inr ("xA/", "").
Proof. vm_compute. reflexivity. Qed.

(** A missing field, a [null] field and the value [null] leave the zero
    value. *)
Example Decode_empty_object : Decode "{}" = inr ("", "").
Proof. vm_compute. reflexivity. Qed.
Example Decode_null_field : Decode ("{" +:+ q "title" +:+ ":null}") = inr ("", "").
Proof. vm_compute. reflexivity. Qed.
Example Decode_null : Decode "null" = inr ("", "").
Proof. vm_compute. reflexivity. Qed.

(** What follows the first value is not read. *)
Example Decode_trailing_text : Valid "{}x" = false ∧ Decode "{}x" = inr ("", "").
Proof. split; vm_compute; reflexivity. Qed.
Example Decode_second_value :
  Decode ("{" +:+ q "title" +:+ ":" +:+ q "a" +:+ "}{" +:+ q "title" +:+ ":5}")
  = inr ("a", "").
Proof. vm_compute. reflexivity. Qed.

(** The body is rejected when it has no value, when the first value is cut
    short or ill formed, and when the value does not fit the struct. *)
Example Decode_no_body : Decode "" = inl io_EOF.
Proof. vm_compute. reflexivity. Qed.
Example Decode_cut_short : Decode "{" = inl io_ErrUnexpectedEOF.
Proof. vm_compute. reflexivity. Qed.
Example Decode_ill_formed :
  Decode ("{" +:+ q "title" +:+ ":" +:+ q "a" +:+ ",}")
  = inl (SyntaxError "looking for beginning of object key string").
Proof. vm_compute. reflexivity. Qed.
Example Decode_unfit_field :
  Valid ("{" +:+ q "title" +:+ ":5}") = true
  ∧ Decode ("{" +:+ q "title" +:+ ":5}") = inl (UnmarshalTypeError "number").
Proof. split; vm_compute; reflexivity. Qed.
Example Decode_unfit_value : Decode "[1]" = inl (UnmarshalTypeError "array").
Proof. vm_compute. reflexivity. Qed.

End JSONFacts.

(** ** The [DB] methods *)
Module DBProps.
Import GoInt Strconv Crud IntFacts.

Lemma run_calls_app cs1 cs2 s :
  run_calls (cs1 ++ cs2) s
  = ((run_calls cs1 s).1 ++ (run_calls cs2 (run_calls cs1 s).2).1,
     (run_calls cs2 (run_calls cs1 s).2).2).
Proof.
  revert s. induction cs1 as [|cl cs1 IH]; intros s; simpl.
  - by destruct (run_calls cs2 s).
  - rewrite IH. simpl. by rewrite app_assoc.
Qed.

Lemma added_IDs_app cs1 cs2 s :
  added_IDs (cs1 ++ cs2) s
  = added_IDs cs1 s ++ added_IDs cs2 (run_calls cs1 s).2.
Proof. unfold added_IDs. rewrite run_calls_app. simpl. apply fmap_app. Qed.

Lemma count_AddPost_cons cl cs :
  count_AddPost (cl :: cs)
  = ((if is_AddPost cl then 1 else 0) + count_AddPost cs)%nat.
Proof.
  unfold count_AddPost. rewrite filter_cons.
  destruct (decide (is_AddPost cl = true)) as [->|Hn]; simpl; [done|].
  by destruct (is_AddPost cl).
Qed.

(** Only [AddPost] moves the counter. *)
Lemma db_call_counter cl s :
  idPostCounter (db_call cl s).2
  = if is_AddPost cl then incr (idPostCounter s) else idPostCounter s.
Proof. by destruct cl. Qed.

(** While the counter stays below the largest [int], a run moves it up by the
    number of its [AddPost] calls. *)
Lemma run_calls_counter cs s :
  int_min <= idPostCounter s →
  idPostCounter s + Z.of_nat (count_AddPost cs) <= int_max →
  idPostCounter (run_calls cs s).2
  = idPostCounter s + Z.of_nat (count_AddPost cs).
Proof.
  revert s. induction cs as [|cl cs IH]; intros s Hlo Hhi.
  - unfold count_AddPost. simpl. lia.
  - rewrite count_AddPost_cons in Hhi |- *. simpl.
    pose proof (db_call_counter cl s) as Hc.
    destruct (is_AddPost cl).
    + rewrite incr_below_max in Hc by lia. rewrite IH; lia.
    + rewrite IH; lia.
Qed.

Lemma added_IDs_length cs s : length (added_IDs cs s) = count_AddPost cs.
Proof.
  unfold added_IDs. rewrite length_fmap. revert s.
  induction cs as [|cl cs IH]; intros s; [done|].
  rewrite count_AddPost_cons. simpl. rewrite length_app, IH.
  by destruct cl.
Qed.

Lemma added_IDs_cons_add newPost cs s :
  added_IDs (CallAddPost newPost :: cs) s
  = incr (idPostCounter s) :: added_IDs cs (AddPost newPost s).2.
Proof. reflexivity. Qed.

Lemma added_IDs_cons_other cl cs s :
  is_AddPost cl = false →
  added_IDs (cl :: cs) s = added_IDs cs (db_call cl s).2.
Proof. by destruct cl. Qed.

(** The IDs a run assigns lie above the counter it started from and go up. *)
Lemma added_IDs_above_sorted cs s :
  int_min <= idPostCounter s →
  idPostCounter s + Z.of_nat (count_AddPost cs) <= int_max →
  Forall (λ id, idPostCounter s < id) (added_IDs cs s)
  ∧ StronglySorted Z.lt (added_IDs cs s).
Proof.
  revert s. induction cs as [|cl cs IH]; intros s Hlo Hhi.
  - split; constructor.
  - rewrite count_AddPost_cons in Hhi.
    pose proof (db_call_counter cl s) as Hc.
    destruct (is_AddPost cl) eqn:Hadd.
    + destruct cl; try done. rewrite added_IDs_cons_add.
      change (db_call (CallAddPost newPost) s).2 with (AddPost newPost s).2 in Hc.
      rewrite incr_below_max in Hc |- * by lia.
      destruct (IH (AddPost newPost s).2) as [Hab Hso]; [lia..|].
      rewrite Hc in Hab. split.
      * constructor; [lia|]. eapply Forall_impl; [exact Hab|]. simpl. lia.
      * constructor; [exact Hso|]. eapply Forall_impl; [exact Hab|]. simpl. lia.
    + rewrite added_IDs_cons_other by done.
      destruct (IH (db_call cl s).2) as [Hab Hso]; [lia..|].
      by rewrite Hc in Hab.
Qed.

Lemma StronglySorted_lookup_lt (l : list Z) (i j : nat) (x y : Z) :
  StronglySorted Z.lt l → (i < j)%nat → l !! i = Some x → l !! j = Some y → x < y.
Proof.
  intros Hso. revert i j. induction Hso as [|a l Hso IH Hall]; intros i j Hij Hi Hj.
  - done.
  - destruct j as [|j]; [lia|]. destruct i as [|i]; simpl in *.
    + injection Hi as ->. rewrite Forall_forall in Hall.
      apply Hall. by eapply list_elem_of_lookup_2.
    + apply (IH i j); [lia|done..].
Qed.

(** C1, as amended: in a run of calls to the DB methods that does not take
    the counter past the largest [int], every [AddPost] returns an ID
    strictly greater than the ID returned by every earlier [AddPost] (so the
    IDs handed out are pairwise different), and greater than the counter the
    run started from. *)
Theorem AddPost_IDs_strictly_increasing (cs : list DBCall) (s : Store) :
  int_min <= idPostCounter s →
  idPostCounter s + Z.of_nat (count_AddPost cs) <= int_max →
  (∀ (i j : nat) (x y : Z),
      (i < j)%nat → added_IDs cs s !! i = Some x → added_IDs cs s !! j = Some y →
      x < y)
  ∧ NoDup (added_IDs cs s)
  ∧ Forall (λ id, idPostCounter s < id) (added_IDs cs s).
Proof.
  intros Hlo Hhi. destruct (added_IDs_above_sorted cs s Hlo Hhi) as [Hab Hso].
  split; [|split; [|done]].
  - intros i j x y. by apply StronglySorted_lookup_lt.
  - apply NoDup_alt. intros i j x Hi Hj.
    destruct (Nat.lt_trichotomy i j) as [Hlt|[->|Hlt]]; [|done|].
    + pose proof (StronglySorted_lookup_lt _ _ _ _ _ Hso Hlt Hi Hj). lia.
    + pose proof (StronglySorted_lookup_lt _ _ _ _ _ Hso Hlt Hj Hi). lia.
Qed.

Lemma AddPost_IDs_strictly_increasing_witness :
  let cs := [CallAddPost (mkPost 0 "a" "x"); CallDeletePostByID 1;
             CallAddPost (mkPost 0 "b" "y")] in
  added_IDs cs init_store = [1; 2]
  ∧ ((∀ (i j : nat) (x y : Z),
         (i < j)%nat → added_IDs cs init_store !! i = Some x →
         added_IDs cs init_store !! j = Some y → x < y)
     ∧ NoDup (added_IDs cs init_store)
     ∧ Forall (λ id, idPostCounter init_store < id) (added_IDs cs init_store)).
Proof.
  split; [reflexivity|].
  apply AddPost_IDs_strictly_increasing; vm_compute; discriminate.
Defined.

(** At the largest [int] the counter wraps: the next ID is the smallest. *)
Lemma AddPost_at_int_max newPost db :
  ID (AddPost newPost (mkStore db int_max)).1.1 = int_min.
Proof. reflexivity. Qed.

Lemma count_AddPost_replicate n newPost :
  count_AddPost (replicate n (CallAddPost newPost)) = n.
Proof.
  induction n as [|n IH]; [done|].
  rewrite replicate_S, count_AddPost_cons, IH. done.
Qed.

(** C1, as stated, fails: of [2^63] calls to [AddPost] from the start of the
    program, the last returns the ID [-2^63], below the ID [1] of the first. *)
Lemma AddPost_IDs_wrap_around :
  let cs := replicate (S (Z.to_nat int_max)) (CallAddPost (mkPost 0 "t" "b")) in
  ∃ (i j : nat) (x y : Z),
    (i < j)%nat ∧ added_IDs cs init_store !! i = Some x
    ∧ added_IDs cs init_store !! j = Some y ∧ y < x.
Proof.
  assert (Z.of_nat (Z.to_nat int_max) = int_max) as Hm.
  { apply Z2Nat.id. unfold int_max. lia. }
  revert Hm. generalize (Z.to_nat int_max). intros m Hm.
  exists 0%nat, m, 1, int_min. split; [|split; [|split]].
  - unfold int_max in Hm. lia.
  - rewrite replicate_S, added_IDs_cons_add. reflexivity.
  - rewrite replicate_S_end, added_IDs_app.
    pose proof (added_IDs_length (replicate m (CallAddPost (mkPost 0 "t" "b")))
                  init_store) as Hlen.
    rewrite count_AddPost_replicate in Hlen.
    rewrite lookup_app_r by lia. rewrite Hlen, Nat.sub_diag.
    rewrite added_IDs_cons_add. simpl. f_equal.
    rewrite run_calls_counter.
    + rewrite count_AddPost_replicate, Hm. reflexivity.
    + simpl. unfold int_min. lia.
    + rewrite count_AddPost_replicate, Hm. simpl. lia.
  - unfold int_min. lia.
Qed.

(** C9: [UpdatePost] writes the post under its ID whatever the store holds
    and returns it with a nil error: when no entry has that ID, the call
    creates one. *)
Theorem UpdatePost_is_upsert (updatePost : Post) (s : Store) :
  UpdatePost updatePost s
  = ((updatePost, None),
     mkStore (<[ID updatePost := updatePost]> (inmemoryPostDB s))
             (idPostCounter s))
  ∧ inmemoryPostDB (UpdatePost updatePost s).2 !! ID updatePost = Some updatePost
  ∧ (∀ k, k ≠ ID updatePost →
          inmemoryPostDB (UpdatePost updatePost s).2 !! k = inmemoryPostDB s !! k)
  ∧ dom (inmemoryPostDB (UpdatePost updatePost s).2)
    = {[ID updatePost]} ∪ dom (inmemoryPostDB s).
Proof.
  split; [done|]. simpl. split; [apply lookup_insert_eq|]. split.
  - intros k Hk. by apply lookup_insert_ne.
  - apply dom_insert_L.
Qed.

(** On the empty store of a fresh program, updating post 5 creates it. *)
Example UpdatePost_creates :
  let s := (UpdatePost (mkPost 5 "t" "b") init_store).2 in
  GetPostByID 5 init_store = (Post_zero, Some ErrNotFound)
  ∧ GetPostByID 5 s = (mkPost 5 "t" "b", None).
Proof. split; reflexivity. Qed.

(** *** [GetAllPost] *)

Global Instance cmp_by_ID_total : Total (cmp_le cmp_by_ID).
Proof.
  intros p q. unfold cmp_le, cmp_by_ID. rewrite !cmp_Compare_le. lia.
Qed.

Global Instance cmp_by_ID_trans : Transitive (cmp_le cmp_by_ID).
Proof.
  intros p q r. unfold cmp_le, cmp_by_ID. rewrite !cmp_Compare_le. lia.
Qed.

Lemma StronglySorted_weaken {A} (R1 R2 : relation A) (l : list A) :
  (∀ x y, R1 x y → R2 x y) → StronglySorted R1 l → StronglySorted R2 l.
Proof.
  intros HR. induction 1 as [|x l Hso IH Hall]; constructor; [done|].
  eapply Forall_impl; [exact Hall|]. eauto.
Qed.

Lemma elem_of_maps_Values (m : gmap Z Post) (p : Post) :
  p ∈ maps_Values m ↔ ∃ k, m !! k = Some p.
Proof.
  unfold maps_Values. rewrite list_elem_of_fmap. split.
  - intros [[k q] [-> Hin]]. exists k. by apply elem_of_map_to_list.
  - intros [k Hk]. exists (k, p). split; [done|]. by apply elem_of_map_to_list.
Qed.

(** Whatever order the map is iterated in, sorting gives the stored posts in
    ascending order of ID. *)
Lemma SortedFunc_by_ID (m : gmap Z Post) (vs : list Post) :
  vs ≡ₚ maps_Values m →
  SortedFunc cmp_by_ID vs ≡ₚ maps_Values m
  ∧ StronglySorted (λ p q, ID p <= ID q) (SortedFunc cmp_by_ID vs).
Proof.
  intros Hvs. unfold SortedFunc. split.
  - by rewrite merge_sort_Permutation.
  - eapply StronglySorted_weaken; [|apply StronglySorted_merge_sort; apply _].
    intros p q. unfold cmp_le, cmp_by_ID. by rewrite cmp_Compare_le.
Qed.

(** C2: in every state of the store, [GetAllPost] returns, with a nil error,
    exactly the stored posts (each as often as it is stored), in ascending
    order of ID.  The result is a function of the store's contents: the
    order in which the entries were inserted or updated plays no part. *)
Theorem GetAllPost_sorted_by_ID (s : Store) :
  (GetAllPost s).2 = None
  ∧ (GetAllPost s).1 ≡ₚ maps_Values (inmemoryPostDB s)
  ∧ (∀ p, p ∈ (GetAllPost s).1 ↔ ∃ k, inmemoryPostDB s !! k = Some p)
  ∧ StronglySorted (λ p q, ID p <= ID q) (GetAllPost s).1.
Proof.
  destruct (SortedFunc_by_ID (inmemoryPostDB s) (maps_Values (inmemoryPostDB s)))
    as [Hperm Hso]; [done|].
  split; [done|]. split; [exact Hperm|]. split; [|exact Hso].
  intros p. simpl. rewrite Hperm. apply elem_of_maps_Values.
Qed.

(** Inserted as 1, 2, 3, then 1 updated last: listed as 1, 2, 3. *)
Example GetAllPost_after_update :
  let cs := [CallAddPost (mkPost 0 "a" ""); CallAddPost (mkPost 0 "b" "");
             CallAddPost (mkPost 0 "c" ""); CallUpdatePost (mkPost 1 "z" "")] in
  (GetAllPost (run_calls cs init_store).2).1
  = [mkPost 1 "z" ""; mkPost 2 "b" ""; mkPost 3 "c" ""].
Proof. vm_compute. reflexivity. Qed.

(** Posts 3, 1, 2 written in that order, or in the order 1, 2, 3: the same
    listing. *)
Example GetAllPost_any_insertion_order :
  let p1 := mkPost 1 "a" "" in
  let p2 := mkPost 2 "b" "" in
  let p3 := mkPost 3 "c" "" in
  let s := (run_calls [CallUpdatePost p3; CallUpdatePost p1; CallUpdatePost p2]
              init_store).2 in
  let s' := (run_calls [CallUpdatePost p1; CallUpdatePost p2; CallUpdatePost p3]
               init_store).2 in
  (GetAllPost s).1 = [p1; p2; p3] ∧ (GetAllPost s').1 = [p1; p2; p3].
Proof. split; vm_compute; reflexivity. Qed.

(** [GET /posts] answers 200 with the posts [GetAllPost] returned, in its
    order, and leaves the store as it is. *)
Lemma ListPostHanlder_sorted (c : Context) (s : Store) :
  ∃ resps,
    ListPostHanlder c s = (JSON StatusOK (JListPostDataResps resps) c, s)
    ∧ lpr_ID <$> resps = ID <$> (GetAllPost s).1
    ∧ StronglySorted Z.le (lpr_ID <$> resps).
Proof.
  eexists. split; [reflexivity|]. split.
  - rewrite <- list_fmap_compose. done.
  - rewrite <- list_fmap_compose.
    destruct (SortedFunc_by_ID (inmemoryPostDB s) (maps_Values (inmemoryPostDB s)))
      as [_ Hso]; [done|].
    eapply StronglySorted_fmap; [|exact Hso]. done.
Qed.

(** *** Stores built by the [DB] methods: every post sits under its ID *)

Lemma keyed_by_ID_init : keyed_by_ID init_store.
Proof. intros k p. simpl. by rewrite lookup_empty. Qed.

Lemma keyed_by_ID_db_call cl s : keyed_by_ID s → keyed_by_ID (db_call cl s).2.
Proof.
  intros Hs k p. destruct cl; simpl; try apply Hs.
  - rewrite lookup_insert. case_decide; [|apply Hs]. by intros [= <-].
  - rewrite lookup_insert. case_decide; [|apply Hs]. by intros [= <-].
  - rewrite lookup_delete. case_decide; [done|apply Hs].
Qed.

Lemma keyed_by_ID_run_calls cs s : keyed_by_ID s → keyed_by_ID (run_calls cs s).2.
Proof.
  revert s. induction cs as [|cl cs IH]; intros s Hs; [done|].
  simpl. by apply IH, keyed_by_ID_db_call.
Qed.

Lemma keyed_by_ID_inj s p q :
  keyed_by_ID s → p ∈ maps_Values (inmemoryPostDB s) →
  q ∈ maps_Values (inmemoryPostDB s) → ID p = ID q → p = q.
Proof.
  intros Hs [k Hk]%elem_of_maps_Values [k' Hk']%elem_of_maps_Values Hid.
  pose proof (Hs _ _ Hk). pose proof (Hs _ _ Hk'). congruence.
Qed.

(** In such a store the listing is the only arrangement of the stored posts in
    ascending order of ID: neither the iteration order of the map nor the
    sorting algorithm can show in the result. *)
Lemma GetAllPost_unique s (l : list Post) :
  keyed_by_ID s → l ≡ₚ maps_Values (inmemoryPostDB s) →
  StronglySorted (λ p q, ID p <= ID q) l → l = (GetAllPost s).1.
Proof.
  intros Hs Hperm Hso.
  destruct (SortedFunc_by_ID (inmemoryPostDB s) (maps_Values (inmemoryPostDB s)))
    as [Hperm' Hso']; [done|].
  apply (StronglySorted_unique_strong (λ p q, ID p <= ID q)); [|done..|].
  - intros p q Hp Hq Hpq Hqp. apply (keyed_by_ID_inj s); [done| | |lia].
    + by rewrite <- Hperm.
    + simpl in Hq. by rewrite <- Hperm'.
  - simpl. by rewrite Hperm'.
Qed.

End DBProps.

(** ** The HTTP handlers of the CRUD service *)
Module HandlerProps.
Import GoInt Strconv Crud IntFacts.

Lemma Atoi_ok_nonempty (x : string) (id : Z) : Atoi x = (id, None) → x ≠ "".
Proof. by intros HA ->. Qed.

Lemma GetPostByID_absent (id : Z) (s : Store) :
  inmemoryPostDB s !! id = None → GetPostByID id s = (Post_zero, Some ErrNotFound).
Proof. intros Hid. unfold GetPostByID. by rewrite Hid. Qed.

Lemma GetPostByID_present (id : Z) (s : Store) (post : Post) :
  inmemoryPostDB s !! id = Some post → GetPostByID id s = (post, None).
Proof. intros Hid. unfold GetPostByID. by rewrite Hid. Qed.

Section WithDecoder.

Variable decode : string → error + (string * string).

Lemma GetPostHandler_unknown_ID (c : Context) (s : Store) (id : Z) :
  Atoi (Param "id" c) = (id, None) → inmemoryPostDB s !! id = None →
  GetPostHandler c s = (AbortWithStatus StatusNotFound c, s).
Proof.
  intros HA Hid. unfold GetPostHandler.
  destruct (decide (Param "id" c = "")) as [He|_].
  { by apply Atoi_ok_nonempty in HA. }
  by rewrite HA, (GetPostByID_absent _ _ Hid).
Qed.

Lemma UpdatePostHanlder_unknown (c : Context) (s : Store) (id : Z) :
  Atoi (Param "id" c) = (id, None) → inmemoryPostDB s !! id = None →
  UpdatePostHanlder decode c s = (AbortWithStatus StatusNotFound c, s).
Proof.
  intros HA Hid. unfold UpdatePostHanlder.
  destruct (decide (Param "id" c = "")) as [He|_].
  { by apply Atoi_ok_nonempty in HA. }
  by rewrite HA, (GetPostByID_absent _ _ Hid).
Qed.

Lemma DeletePostHandler_unknown (c : Context) (s : Store) (id : Z) :
  Atoi (Param "id" c) = (id, None) → inmemoryPostDB s !! id = None →
  DeletePostHandler c s = (AbortWithStatus StatusNotFound c, s).
Proof.
  intros HA Hid. unfold DeletePostHandler.
  destruct (decide (Param "id" c = "")) as [He|_].
  { by apply Atoi_ok_nonempty in HA. }
  by rewrite HA, (GetPostByID_absent _ _ Hid).
Qed.

Lemma DeletePostHandler_known (c : Context) (s : Store) (id : Z) (post : Post) :
  Atoi (Param "id" c) = (id, None) → inmemoryPostDB s !! id = Some post →
  DeletePostHandler c s
  = (SetStatus StatusNoContent c,
     mkStore (delete id (inmemoryPostDB s)) (idPostCounter s)).
Proof.
  intros HA Hid. unfold DeletePostHandler.
  destruct (decide (Param "id" c = "")) as [He|_].
  { by apply Atoi_ok_nonempty in HA. }
  by rewrite HA, (GetPostByID_present _ _ _ Hid).
Qed.

(** C3: [PATCH /posts/:id] with an id that is not in the store answers 404
    and leaves the store as it was: nothing is added, removed or changed. *)
Theorem UpdatePostHanlder_unknown_ID (c : Context) (s : Store) (id : Z) :
  Atoi (Param "id" c) = (id, None) → inmemoryPostDB s !! id = None →
  Status (UpdatePostHanlder decode c s).1 = StatusNotFound
  ∧ (UpdatePostHanlder decode c s).2 = s.
Proof.
  intros HA Hid. by rewrite (UpdatePostHanlder_unknown c s id HA Hid).
Qed.

(** C4: [GET /posts/:id] and [DELETE /posts/:id] with an id that is not in
    the store answer 404, and the delete handler leaves the store as it was. *)
Theorem Get_Delete_unknown_ID (c : Context) (s : Store) (id : Z) :
  Atoi (Param "id" c) = (id, None) → inmemoryPostDB s !! id = None →
  Status (GetPostHandler c s).1 = StatusNotFound
  ∧ (GetPostHandler c s).2 = s
  ∧ Status (DeletePostHandler c s).1 = StatusNotFound
  ∧ (DeletePostHandler c s).2 = s.
Proof.
  intros HA Hid.
  by rewrite (GetPostHandler_unknown_ID c s id HA Hid),
             (DeletePostHandler_unknown c s id HA Hid).
Qed.

(** C5: [DELETE /posts/:id] with an id that is in the store answers 204, and
    a [GET /posts/:id] for that id on the store it leaves answers 404. *)
Theorem Delete_then_Get (c c' : Context) (s : Store) (id : Z) :
  Atoi (Param "id" c) = (id, None) → Atoi (Param "id" c') = (id, None) →
  is_Some (inmemoryPostDB s !! id) →
  Status (DeletePostHandler c s).1 = StatusNoContent
  ∧ inmemoryPostDB (DeletePostHandler c s).2 !! id = None
  ∧ Status (GetPostHandler c' (DeletePostHandler c s).2).1 = StatusNotFound.
Proof.
  intros HA HA' [post Hid].
  rewrite (DeletePostHandler_known c s id post HA Hid). simpl.
  split; [done|]. split; [apply lookup_delete_eq|].
  rewrite (GetPostHandler_unknown_ID c' _ id HA'); [done|].
  simpl. apply lookup_delete_eq.
Qed.

(** C8: [POST /posts] with a body that decodes to a title and a body answers
    200 with the ID [AddPost] assigned (the counter after its increment) and
    the title and body of the request; the post is stored under that ID. *)
Theorem NewPostHandler_created (c : Context) (s : Store) (title body : string) :
  decode (RequestBody c) = inr (title, body) →
  let id := incr (idPostCounter s) in
  Status (NewPostHandler decode c s).1 = StatusOK
  ∧ Rendered (NewPostHandler decode c s).1
    = Some (JNewPostResp (mkNewPostResp id title body))
  ∧ idPostCounter (NewPostHandler decode c s).2 = id
  ∧ inmemoryPostDB (NewPostHandler decode c s).2 !! id
    = Some (mkPost id title body)
  ∧ Errors (NewPostHandler decode c s).1 = Errors c.
Proof.
  intros Hd id. unfold NewPostHandler, ShouldBindJSON_NewPostReq.
  rewrite Hd. simpl. repeat split. apply lookup_insert_eq.
Qed.

(** The three handlers with an [:id] parameter start alike: an id that
    [Atoi] rejects, the empty one among them, is answered 400. *)
Lemma rejected_ID_400 (r : Route) (c : Context) (s : Store) :
  r ∈ [GET_posts_id; PATCH_posts_id; DELETE_posts_id] →
  (Atoi (Param "id" c)).2 ≠ None →
  Status (serve decode r c s).1 = StatusBadRequest ∧ (serve decode r c s).2 = s.
Proof.
  intros Hr HA.
  rewrite !elem_of_cons, elem_of_nil in Hr.
  destruct Hr as [Hr|[Hr|[Hr|[]]]]; subst r; simpl;
    unfold GetPostHandler, UpdatePostHanlder, DeletePostHandler;
    (destruct (decide (Param "id" c = "")); [done|]);
    by destruct (Atoi (Param "id" c)) as [v [e|]].
Qed.

(** C6, as amended: a body that [ShouldBindJSON] rejects is answered 400,
    with the binder's error attached and the store left as it was, by
    [POST /posts] (which answers 400 in no other case) and by
    [PATCH /posts/:id] when the id is that of a stored post; a missing or
    non-numeric [:id] is answered 400, the store left as it was, by [GET],
    [PATCH] and [DELETE /posts/:id]. *)
Theorem rejected_requests_400 (c : Context) (s : Store) :
  (∀ err, decode (RequestBody c) = inl err →
      serve decode POST_posts c s = (AbortWithError StatusBadRequest err c, s))
  ∧ (Status (serve decode POST_posts c s).1 = StatusBadRequest →
     ∃ err, decode (RequestBody c) = inl err)
  ∧ (∀ err id post,
        decode (RequestBody c) = inl err →
        Atoi (Param "id" c) = (id, None) →
        inmemoryPostDB s !! id = Some post →
        serve decode PATCH_posts_id c s = (AbortWithError StatusBadRequest err c, s))
  ∧ (∀ r, r ∈ [GET_posts_id; PATCH_posts_id; DELETE_posts_id] →
          is_numeric (Param "id" c) = false →
          Status (serve decode r c s).1 = StatusBadRequest
          ∧ (serve decode r c s).2 = s).
Proof.
  split; [|split; [|split]].
  - intros err Hd. simpl. unfold NewPostHandler, ShouldBindJSON_NewPostReq.
    by rewrite Hd.
  - simpl. unfold NewPostHandler, ShouldBindJSON_NewPostReq.
    destruct (decode (RequestBody c)) as [err|[title body]]; [eauto|].
    simpl. unfold StatusOK, StatusBadRequest. done.
  - intros err id post Hd HA Hid. simpl. unfold UpdatePostHanlder.
    destruct (decide (Param "id" c = "")) as [He|_].
    { by apply Atoi_ok_nonempty in HA. }
    rewrite HA, (GetPostByID_present _ _ _ Hid).
    unfold ShouldBindJSON_UpdatePostReq. by rewrite Hd.
  - intros r Hr Hn. apply rejected_ID_400; [done|].
    destruct (Atoi_non_numeric _ Hn) as (v & e & HA). by rewrite HA.
Qed.

End WithDecoder.

(** *** The theorems at work on [store1], which holds post 1 *)

Lemma UpdatePostHanlder_unknown_ID_witness :
  let c := new_Context {[ "id" := "7" ]} "{}" in
  Status (UpdatePostHanlder sample_decode c store1).1 = StatusNotFound
  ∧ (UpdatePostHanlder sample_decode c store1).2 = store1.
Proof.
  apply (UpdatePostHanlder_unknown_ID sample_decode _ store1 7); reflexivity.
Defined.

Lemma Get_Delete_unknown_ID_witness :
  let c := new_Context {[ "id" := "7" ]} "" in
  Status (GetPostHandler c store1).1 = StatusNotFound
  ∧ (GetPostHandler c store1).2 = store1
  ∧ Status (DeletePostHandler c store1).1 = StatusNotFound
  ∧ (DeletePostHandler c store1).2 = store1.
Proof. apply (Get_Delete_unknown_ID _ store1 7); reflexivity. Defined.

Lemma Delete_then_Get_witness :
  let c := new_Context {[ "id" := "1" ]} "" in
  let c' := new_Context {[ "id" := "+1" ]} "" in
  Status (DeletePostHandler c store1).1 = StatusNoContent
  ∧ inmemoryPostDB (DeletePostHandler c store1).2 !! 1 = None
  ∧ Status (GetPostHandler c' (DeletePostHandler c store1).2).1 = StatusNotFound.
Proof.
  apply (Delete_then_Get _ _ store1 1); [reflexivity..|].
  eexists. reflexivity.
Defined.

Lemma NewPostHandler_created_witness :
  let c := new_Context ∅ "{}" in
  Status (NewPostHandler sample_decode c store1).1 = StatusOK
  ∧ Rendered (NewPostHandler sample_decode c store1).1
    = Some (JNewPostResp (mkNewPostResp (incr (idPostCounter store1)) "" ""))
  ∧ idPostCounter (NewPostHandler sample_decode c store1).2
    = incr (idPostCounter store1)
  ∧ inmemoryPostDB (NewPostHandler sample_decode c store1).2
      !! incr (idPostCounter store1)
    = Some (mkPost (incr (idPostCounter store1)) "" "")
  ∧ Errors (NewPostHandler sample_decode c store1).1 = Errors c.
Proof.
  apply (NewPostHandler_created sample_decode (new_Context ∅ "{}") store1 "" "").
  reflexivity.
Defined.

(** With the sample decoder: [PATCH /posts/7] with a body it rejects, on a
    store without post 7, is answered 404. *)
Lemma PATCH_malformed_body_unknown_ID :
  let c := new_Context {[ "id" := "7" ]} "{" in
  sample_decode (RequestBody c) = inl (ErrOther "unexpected end of JSON input")
  ∧ Status (serve sample_decode PATCH_posts_id c store1).1 = StatusNotFound
  ∧ Status (serve sample_decode PATCH_posts_id c store1).1 ≠ StatusBadRequest.
Proof. split; [reflexivity|]. split; [reflexivity|]. vm_compute. discriminate. Qed.

(** C6, as stated, fails twice over.  [PATCH /posts/7] with the malformed
    body [{] on a store without post 7 is answered 404: the id is looked up
    before the body is read.  [POST /posts] with the malformed body [{}x] is
    answered 200 and stores a post: the binder decodes the first JSON value
    and does not read what follows it. *)
Lemma malformed_body_not_400 :
  let c1 := new_Context {[ "id" := "7" ]} "{" in
  let c2 := new_Context ∅ "{}x" in
  (GoJSON.Valid (RequestBody c1) = false
   ∧ Status (serve GoJSON.Decode PATCH_posts_id c1 store1).1 = StatusNotFound)
  ∧ (GoJSON.Valid (RequestBody c2) = false
     ∧ serve GoJSON.Decode POST_posts c2 store1
       = (JSON StatusOK (JNewPostResp (mkNewPostResp 2 "" "")) c2,
          mkStore (<[2 := mkPost 2 "" ""]> (inmemoryPostDB store1)) 2)).
Proof. repeat split; vm_compute; reflexivity. Qed.

Lemma rejected_requests_400_witness :
  let unfit := "{" +:+ GoJSON.q "title" +:+ ":5}" in
  GoJSON.Valid unfit = true
  ∧ serve GoJSON.Decode POST_posts (new_Context ∅ "{") store1
  = (AbortWithError StatusBadRequest GoJSON.io_ErrUnexpectedEOF (new_Context ∅ "{"),
     store1)
  ∧ serve GoJSON.Decode PATCH_posts_id (new_Context {[ "id" := "1" ]} unfit) store1
    = (AbortWithError StatusBadRequest (GoJSON.UnmarshalTypeError "number")
         (new_Context {[ "id" := "1" ]} unfit), store1)
  ∧ Status (serve GoJSON.Decode DELETE_posts_id
              (new_Context {[ "id" := "abc" ]} "") store1).1
    = StatusBadRequest
  ∧ Status (serve GoJSON.Decode GET_posts_id (new_Context ∅ "") store1).1
    = StatusBadRequest.
Proof.
  split; [vm_compute; reflexivity|]. split; [|split; [|split]].
  - eapply (proj1 (rejected_requests_400 GoJSON.Decode (new_Context ∅ "{") store1)).
    vm_compute. reflexivity.
  - eapply (proj1 (proj2 (proj2 (rejected_requests_400 GoJSON.Decode
              (new_Context {[ "id" := "1" ]} ("{" +:+ GoJSON.q "title" +:+ ":5}"))
              store1)))).
    + vm_compute. reflexivity.
    + reflexivity.
    + reflexivity.
  - eapply (proj2 (proj2 (proj2 (rejected_requests_400 GoJSON.Decode
              (new_Context {[ "id" := "abc" ]} "") store1)))); [|reflexivity].
    rewrite !elem_of_cons. tauto.
  - eapply (proj2 (proj2 (proj2 (rejected_requests_400 GoJSON.Decode
              (new_Context ∅ "") store1)))); [|reflexivity].
    rewrite !elem_of_cons. tauto.
Defined.

End HandlerProps.

(** ** The notifier demo: [UpdateHandler] and its type-switch variant *)
Module NotifyProps.
Import Notify.

Section WithWorld.

Variable World : Type.

Implicit Types (ns : list (PostUpdateNotifier World)) (r : Run World).
Implicit Types (c : Context) (new : list (Call World)).

(** What one pass of the loop over [ns] does: it calls a prefix of [ns] in
    order, each with [post] and [ActionUpdate]; either all of [ns] were called
    and returned nil, or the last call made returned the error now attached
    to the context. *)
Lemma range_notifiers_calls ns post c r :
  ∃ new,
    calls (range_notifiers ns post c r).2 = calls r ++ new
    ∧ callee <$> new `prefix_of` ns
    ∧ Forall (λ cl, arg_post cl = post ∧ arg_action cl = ActionUpdate) new
    ∧ ((range_notifiers ns post c r).1.1 = false
       ∧ callee <$> new = ns
       ∧ Forall (λ cl, returned cl = None) new
       ∧ (range_notifiers ns post c r).1.2 = c
       ∨
       ∃ new0 cl err,
         (range_notifiers ns post c r).1.1 = true
         ∧ new = new0 ++ [cl]
         ∧ Forall (λ cl, returned cl = None) new0
         ∧ returned cl = Some err
         ∧ (range_notifiers ns post c r).1.2 = Error err c).
Proof.
  revert r. induction ns as [|n ns IH]; intros r.
  - exists []. simpl. rewrite app_nil_r. repeat split; try done.
    left. repeat split; done.
  - simpl. unfold invoke.
    destruct (NotifyPostUpdated n post ActionUpdate (world r)) as [[err|] w'] eqn:Hn.
    + exists [mkCall n post ActionUpdate (Some err)]. simpl.
      split; [done|]. split; [by apply prefix_cons, prefix_nil|].
      split; [by repeat constructor|].
      right. exists [], (mkCall n post ActionUpdate (Some err)), err.
      repeat split; done.
    + destruct (IH (mkRun w' (calls r ++ [mkCall n post ActionUpdate None])))
        as (new & Hcalls & Hpre & Hargs & Hend).
      exists (mkCall n post ActionUpdate None :: new). simpl in *.
      split; [by rewrite Hcalls, <- app_assoc|].
      split; [by apply prefix_cons|].
      split; [by constructor|].
      destruct Hend as [(Hret & Hall & Hok & Hc)|(new0 & cl & err & Hret & -> & Hok & Herr & Hc)].
      * left. repeat split; try done; [by f_equal|by constructor].
      * right. exists (mkCall n post ActionUpdate None :: new0), cl, err.
        repeat split; try done. by constructor.
Qed.

(** The type switch of lsp.go makes the loop that of the plain handler over
    the [*EmailNotifier]s among the notifiers. *)
Lemma lsp_range_notifiers_filter ns post c r :
  lsp_range_notifiers ns post c r
  = range_notifiers (filter (λ n, is_EmailNotifierPtr n = true) ns) post c r.
Proof.
  revert r. induction ns as [|n ns IH]; intros r; [done|].
  rewrite filter_cons. simpl.
  destruct (is_EmailNotifierPtr n) eqn:Hn.
  - destruct (decide (true = true)); [|done]. simpl.
    destruct (invoke n post ActionUpdate r) as [[err|] r']; [done|]. apply IH.
  - destruct (decide (false = true)); [done|]. apply IH.
Qed.

(** C10: [UpdateHandler] of lsp.go behaves as the plain handler does on the
    [*EmailNotifier]s among its notifiers: every call it makes is on a
    notifier of dynamic type [*EmailNotifier], in their order; a notifier of
    any other type is not called, and whatever it would have returned, the
    response is 200 with the body [{"status": "post updated"}] as soon as no
    call made returned an error. *)
Theorem lsp_UpdateHandler_only_EmailNotifier
    (h : PostHandler World) (c : Context) (r : Run World) :
  lsp_UpdateHandler h c r
  = UpdateHandler
      (NewPostHandler (filter (λ n, is_EmailNotifierPtr n = true) (notifiers h)))
      c r
  ∧ ∃ new,
      calls (lsp_UpdateHandler h c r).2 = calls r ++ new
      ∧ Forall (λ cl, is_EmailNotifierPtr (callee cl) = true) new
      ∧ callee <$> new
          `prefix_of` filter (λ n, is_EmailNotifierPtr n = true) (notifiers h)
      ∧ (Forall (λ cl, returned cl = None) new →
         Response (lsp_UpdateHandler h c r).1
         = Some (200, {[ "status" := "post updated" ]})
         ∧ Errors (lsp_UpdateHandler h c r).1 = Errors c).
Proof.
  split.
  { unfold lsp_UpdateHandler, UpdateHandler. simpl.
    by rewrite lsp_range_notifiers_filter. }
  unfold lsp_UpdateHandler. rewrite lsp_range_notifiers_filter.
  set (es := filter (λ n, is_EmailNotifierPtr n = true) (notifiers h)).
  destruct (range_notifiers_calls es Post_zero c r)
    as (new & Hcalls & Hpre & Hargs & Hend).
  destruct (range_notifiers es Post_zero c r) as [[ret c'] r'].
  simpl in *. exists new.
  assert (Forall (λ cl, is_EmailNotifierPtr (callee cl) = true) new) as Hemail.
  { apply Forall_forall. intros cl Hcl.
    assert (callee cl ∈ es) as Hin.
    { destruct Hpre as [k ->]. apply elem_of_app. left.
      apply list_elem_of_fmap. by exists cl. }
    unfold es in Hin. by apply list_elem_of_filter in Hin as [? _]. }
  destruct Hend as [(-> & Hall & Hok & ->)|(new0 & cl & err & -> & -> & Hok & Herr & ->)].
  - do 3 (split; [done|]). done.
  - do 3 (split; [done|]). intros Hnone. exfalso.
    rewrite Forall_app, Forall_singleton in Hnone.
    destruct Hnone as [_ Hcl]. congruence.
Qed.

End WithWorld.

(** *** The two handlers on the notifiers of [main] *)

(** The mail service is down: the demo handler attaches its error, writes no
    response and does not call the line notifier. *)
Example UpdateHandler_mail_down :
  let h := NewPostHandler [EmailNotifierPtr (mkEmailNotifier outbox mailer_down);
                           line_up] in
  let res := UpdateHandler h new_Context (start []) in
  Errors res.1 = [ErrOther "smtp: down"]
  ∧ Response res.1 = None
  ∧ length (calls res.2) = 1%nat
  ∧ world res.2 = [].
Proof. repeat split; reflexivity. Qed.

(** Both services are up: both notifiers are called, mail first. *)
Example UpdateHandler_all_up :
  let h := NewPostHandler [EmailNotifierPtr (mkEmailNotifier outbox mailer_up);
                           line_up] in
  let res := UpdateHandler h new_Context (start []) in
  Errors res.1 = []
  ∧ Response res.1 = Some (200, {[ "status" := "post updated" ]})
  ∧ world res.2 = [("mail", "Post Update Notification"); ("line", "update")].
Proof. repeat split; reflexivity. Qed.

(** The line service is down and registered first: the handler of lsp.go
    skips it and answers 200, where the demo handler stops with its error. *)
Example lsp_UpdateHandler_line_down :
  let h := NewPostHandler [line_down;
                           EmailNotifierPtr (mkEmailNotifier outbox mailer_up)] in
  let res := lsp_UpdateHandler h new_Context (start []) in
  Response res.1 = Some (200, {[ "status" := "post updated" ]})
  ∧ Errors res.1 = []
  ∧ world res.2 = [("mail", "Post Update Notification")]
  ∧ Errors (UpdateHandler h new_Context (start [])).1 = [ErrOther "line: down"].
Proof. repeat split; reflexivity. Qed.

End NotifyProps.

(** ** More on the handlers: what a request that succeeds does *)
Module HandlerOutcomes.
Import GoInt Strconv Crud CrudRuns IntFacts DBProps HandlerProps.

Section WithDecoder.

Variable decode : string → error + (string * string).

Lemma GetPostHandler_known (c : Context) (s : Store) (id : Z) (post : Post) :
  Atoi (Param "id" c) = (id, None) → inmemoryPostDB s !! id = Some post →
  GetPostHandler c s
  = (JSON StatusOK
       (JGetPostResp (mkGetPostResp (ID post) (Title post) (Body post))) c, s).
Proof.
  intros HA Hid. unfold GetPostHandler.
  destruct (decide (Param "id" c = "")) as [He|_].
  { by apply Atoi_ok_nonempty in HA. }
  by rewrite HA, (GetPostByID_present _ _ _ Hid).
Qed.

Lemma UpdatePostHanlder_known (c : Context) (s : Store) (id : Z) (post : Post)
    (title body : string) :
  Atoi (Param "id" c) = (id, None) → inmemoryPostDB s !! id = Some post →
  decode (RequestBody c) = inr (title, body) →
  UpdatePostHanlder decode c s
  = (JSON StatusOK (JUpdatePostResp (mkUpdatePostResp (ID post) title body)) c,
     mkStore (<[ID post := mkPost (ID post) title body]> (inmemoryPostDB s))
             (idPostCounter s)).
Proof.
  intros HA Hid Hd. unfold UpdatePostHanlder.
  destruct (decide (Param "id" c = "")) as [He|_].
  { by apply Atoi_ok_nonempty in HA. }
  rewrite HA, (GetPostByID_present _ _ _ Hid).
  unfold ShouldBindJSON_UpdatePostReq. by rewrite Hd.
Qed.

Lemma NewPostHandler_ok (c : Context) (s : Store) (title body : string) :
  decode (RequestBody c) = inr (title, body) →
  NewPostHandler decode c s
  = (JSON StatusOK
       (JNewPostResp (mkNewPostResp (incr (idPostCounter s)) title body)) c,
     mkStore (<[incr (idPostCounter s) :=
                  mkPost (incr (idPostCounter s)) title body]> (inmemoryPostDB s))
             (incr (idPostCounter s))).
Proof.
  intros Hd. unfold NewPostHandler, ShouldBindJSON_NewPostReq. by rewrite Hd.
Qed.

(** X1: a post created by [POST /posts] is read back by [GET /posts/:id]
    under the ID the POST answered: 200 with that ID and the title and body
    of the POST, the store left as the POST left it. *)
Theorem POST_then_GET (c c' : Context) (s : Store) (title body : string) :
  decode (RequestBody c) = inr (title, body) →
  Atoi (Param "id" c') = (incr (idPostCounter s), None) →
  GetPostHandler c' (NewPostHandler decode c s).2
  = (JSON StatusOK
       (JGetPostResp (mkGetPostResp (incr (idPostCounter s)) title body)) c',
     (NewPostHandler decode c s).2).
Proof.
  intros Hd HA. rewrite (NewPostHandler_ok c s title body Hd). simpl.
  rewrite (GetPostHandler_known c' _ _ (mkPost (incr (idPostCounter s)) title body) HA);
    [done|]. simpl. apply lookup_insert_eq.
Qed.

(** X2: [GET /posts/:id] for a stored post answers 200 with its title and
    body and, in a store where posts sit under their IDs, with the ID of the
    path; the store is left as it was. *)
Theorem GET_stored_post (c : Context) (s : Store) (id : Z) (post : Post) :
  keyed_by_ID s →
  Atoi (Param "id" c) = (id, None) → inmemoryPostDB s !! id = Some post →
  GetPostHandler c s
  = (JSON StatusOK (JGetPostResp (mkGetPostResp id (Title post) (Body post))) c, s).
Proof.
  intros Hk HA Hid. rewrite (GetPostHandler_known c s id post HA Hid).
  by rewrite (Hk _ _ Hid).
Qed.

(** X3: [PATCH /posts/:id] for a stored post, with a body that decodes,
    answers 200 with the ID of the path and the new title and body, and
    replaces the post under that ID; the counter and the other posts stay. *)
Theorem PATCH_stored_post (c : Context) (s : Store) (id : Z) (post : Post)
    (title body : string) :
  keyed_by_ID s →
  Atoi (Param "id" c) = (id, None) → inmemoryPostDB s !! id = Some post →
  decode (RequestBody c) = inr (title, body) →
  UpdatePostHanlder decode c s
  = (JSON StatusOK (JUpdatePostResp (mkUpdatePostResp id title body)) c,
     mkStore (<[id := mkPost id title body]> (inmemoryPostDB s)) (idPostCounter s))
  ∧ dom (inmemoryPostDB (UpdatePostHanlder decode c s).2) = dom (inmemoryPostDB s)
  ∧ ∀ k, k ≠ id →
         inmemoryPostDB (UpdatePostHanlder decode c s).2 !! k
         = inmemoryPostDB s !! k.
Proof.
  intros Hk HA Hid Hd.
  rewrite (UpdatePostHanlder_known c s id post title body HA Hid Hd).
  rewrite (Hk _ _ Hid). simpl. split; [done|]. split.
  - rewrite dom_insert_L. apply subseteq_union_1_L, singleton_subseteq_l.
    apply elem_of_dom. eauto.
  - intros k Hne. by apply lookup_insert_ne.
Qed.

(** X4: after such a PATCH, [GET /posts/:id] answers the new title and
    body. *)
Theorem PATCH_then_GET (c c' : Context) (s : Store) (id : Z) (post : Post)
    (title body : string) :
  keyed_by_ID s →
  Atoi (Param "id" c) = (id, None) → Atoi (Param "id" c') = (id, None) →
  inmemoryPostDB s !! id = Some post →
  decode (RequestBody c) = inr (title, body) →
  (GetPostHandler c' (UpdatePostHanlder decode c s).2).1
  = JSON StatusOK (JGetPostResp (mkGetPostResp id title body)) c'.
Proof.
  intros Hk HA HA' Hid Hd.
  rewrite (UpdatePostHanlder_known c s id post title body HA Hid Hd).
  rewrite (Hk _ _ Hid).
  rewrite (GetPostHandler_known c' _ _ (mkPost id title body) HA'); [done|].
  simpl. apply lookup_insert_eq.
Qed.

(** X5: the same PATCH served twice leaves the store and the answer of the
    first. *)
Theorem PATCH_twice (c : Context) (s : Store) (id : Z) (post : Post)
    (title body : string) :
  keyed_by_ID s →
  Atoi (Param "id" c) = (id, None) → inmemoryPostDB s !! id = Some post →
  decode (RequestBody c) = inr (title, body) →
  UpdatePostHanlder decode c (UpdatePostHanlder decode c s).2
  = UpdatePostHanlder decode c s.
Proof.
  intros Hk HA Hid Hd.
  rewrite (UpdatePostHanlder_known c s id post title body HA Hid Hd).
  rewrite (Hk _ _ Hid).
  rewrite (UpdatePostHanlder_known c _ id (mkPost id title body) title body HA);
    [|simpl; apply lookup_insert_eq|exact Hd].
  simpl. by rewrite insert_insert_eq.
Qed.

(** X6: [DELETE /posts/:id] removes the one post and nothing else, and
    leaves the counter; the same DELETE served again answers 404 and changes
    nothing. *)
Theorem DELETE_twice (c : Context) (s : Store) (id : Z) :
  Atoi (Param "id" c) = (id, None) → is_Some (inmemoryPostDB s !! id) →
  let s' := (DeletePostHandler c s).2 in
  idPostCounter s' = idPostCounter s
  ∧ (∀ k, k ≠ id → inmemoryPostDB s' !! k = inmemoryPostDB s !! k)
  ∧ Status (DeletePostHandler c s').1 = StatusNotFound
  ∧ (DeletePostHandler c s').2 = s'.
Proof.
  intros HA [post Hid] s'. unfold s'.
  rewrite (DeletePostHandler_known c s id post HA Hid). simpl.
  split; [done|]. split; [intros k Hne; by apply lookup_delete_ne|].
  rewrite (DeletePostHandler_unknown c _ id HA); [done|].
  simpl. apply lookup_delete_eq.
Qed.

(** Case analysis on the run of a handler: on the id parameter, what [Atoi]
    makes of it, the lookup and the decoding of the body. *)
Ltac handler_cases :=
  unfold NewPostHandler, GetPostHandler, ListPostHanlder, UpdatePostHanlder,
    DeletePostHandler, ShouldBindJSON_NewPostReq, ShouldBindJSON_UpdatePostReq,
    GetPostByID;
  repeat (first
    [ match goal with
      | |- context [decide (Param ?k ?c = ?e)] => destruct (decide (Param k c = e))
      | |- context [Atoi ?x] => destruct (Atoi x) as [? [?|]]
      | |- context [decode ?x] => destruct (decode x) as [?|[? ?]]
      | |- context [inmemoryPostDB ?s !! ?k] =>
          destruct (inmemoryPostDB s !! k) eqn:?
      | |- context [decide (ErrNotFound = ErrNotFound)] =>
          destruct (decide (ErrNotFound = ErrNotFound)); [|congruence]
      end ]; simpl).

(** X7: every route answers 200, 204, 400 or 404, whatever the request and
    the store: the 500 branches of the handlers are never taken.  A handler
    aborts the context exactly when it answers 400 or 404. *)
Theorem statuses_served (r : Route) (c : Context) (s : Store) :
  Status (serve decode r c s).1
    ∈ [StatusOK; StatusNoContent; StatusBadRequest; StatusNotFound]
  ∧ Status (serve decode r c s).1 ≠ StatusInternalServerError
  ∧ Aborted (serve decode r c s).1
    = Aborted c || bool_decide (400 <= Status (serve decode r c s).1).
Proof.
  destruct r; simpl; handler_cases;
    (split; [rewrite !elem_of_cons; unfold StatusOK, StatusNoContent,
               StatusBadRequest, StatusNotFound; tauto|]);
    (split; [done|]); by destruct (Aborted c).
Qed.

(** The store a request leaves: the one it found, or that store after one
    insertion under the next ID, one replacement of a stored post, or one
    removal of a stored post. *)
Lemma serve_store_cases (r : Route) (c : Context) (s : Store) :
  (serve decode r c s).2 = s
  ∨ (r = POST_posts ∧ ∃ title body,
       (serve decode r c s).2
       = mkStore (<[incr (idPostCounter s) :=
                      mkPost (incr (idPostCounter s)) title body]>
                    (inmemoryPostDB s))
                 (incr (idPostCounter s)))
  ∨ (r = PATCH_posts_id ∧ ∃ id post title body,
       inmemoryPostDB s !! id = Some post
       ∧ (serve decode r c s).2
         = mkStore (<[ID post := mkPost (ID post) title body]> (inmemoryPostDB s))
                   (idPostCounter s))
  ∨ (r = DELETE_posts_id ∧ ∃ id post,
       inmemoryPostDB s !! id = Some post
       ∧ (serve decode r c s).2
         = mkStore (delete id (inmemoryPostDB s)) (idPostCounter s)).
Proof.
  destruct r; simpl; handler_cases; eauto 10.
Qed.

(** X8: a request that is answered 400 or 404, and any request to
    [GET /posts/:id] or [GET /posts], leaves the store as it was. *)
Theorem failed_or_read_request_keeps_store (r : Route) (c : Context) (s : Store) :
  r = GET_posts_id ∨ r = GET_posts ∨ 400 <= Status (serve decode r c s).1 →
  (serve decode r c s).2 = s.
Proof.
  intros H.
  destruct r; simpl in *; revert H; handler_cases;
    unfold StatusOK, StatusNoContent; intros [?|[?|?]]; done || lia.
Qed.

Lemma ids_issued_init : ids_issued init_store.
Proof.
  split; [apply keyed_by_ID_init|]. split; [done|].
  intros k [p Hp]. simpl in Hp. by rewrite lookup_empty in Hp.
Qed.

(** One request keeps [ids_issued] and moves the counter up by at most one. *)
Lemma serve_ids_issued (r : Route) (c : Context) (s : Store) :
  ids_issued s → idPostCounter s < int_max →
  ids_issued (serve decode r c s).2
  ∧ idPostCounter s <= idPostCounter (serve decode r c s).2 <= idPostCounter s + 1.
Proof.
  intros (Hk & H0 & Hle) Hmax.
  assert (incr (idPostCounter s) = idPostCounter s + 1) as Hincr.
  { apply incr_below_max. unfold int_min. lia. }
  destruct (serve_store_cases r c s)
    as [->|[(_ & title & body & ->)|[(_ & id & post & title & body & Hid & ->)
                                    |(_ & id & post & Hid & ->)]]].
  - split; [done|lia].
  - rewrite Hincr. unfold ids_issued. simpl. split; [|lia]. split; [|split; [lia|]].
    + intros k p. simpl. rewrite lookup_insert. case_decide; [|apply Hk].
      by intros [= <-].
    + intros k. simpl. rewrite lookup_insert. case_decide; [lia|].
      intros Hs. specialize (Hle k Hs). lia.
  - unfold ids_issued. simpl. split; [|lia]. split; [|split; [done|]].
    + intros k p. simpl. rewrite lookup_insert. case_decide; [|apply Hk].
      by intros [= <-].
    + intros k. simpl. rewrite lookup_insert. case_decide; [|apply Hle].
      intros _. subst k. rewrite (Hk _ _ Hid). apply Hle. eauto.
  - unfold ids_issued. simpl. split; [|lia]. split; [|split; [done|]].
    + intros k p. simpl. rewrite lookup_delete. case_decide; [done|apply Hk].
    + intros k. simpl. rewrite lookup_delete. case_decide; [by intros [? ?]|apply Hle].
Qed.

(** X9: requests served one after the other keep the store in order: every
    post sits under its own ID, and every key in use is a positive ID the
    counter has reached, as long as the counter stays below the largest
    [int]. *)
Theorem served_store_ids_issued (reqs : list Request) (s : Store) :
  ids_issued s →
  idPostCounter s + Z.of_nat (length reqs) <= int_max →
  ids_issued (serve_all decode reqs s).2.
Proof.
  revert s. induction reqs as [|[r c] reqs IH]; intros s Hs Hmax; [done|].
  simpl in *. destruct (serve_ids_issued r c s Hs) as [Hs' Hc]; [lia|].
  apply IH; [done|lia].
Qed.

(** X10: in such a store a [POST /posts] takes an ID that no stored post
    has: every post stored before is still there, unchanged, and the store
    holds one post more. *)
Theorem POST_keeps_stored_posts (c : Context) (s : Store) (title body : string) :
  ids_issued s → idPostCounter s < int_max →
  decode (RequestBody c) = inr (title, body) →
  inmemoryPostDB s !! incr (idPostCounter s) = None
  ∧ (∀ k p, inmemoryPostDB s !! k = Some p →
            inmemoryPostDB (NewPostHandler decode c s).2 !! k = Some p)
  ∧ size (inmemoryPostDB (NewPostHandler decode c s).2)
    = S (size (inmemoryPostDB s)).
Proof.
  intros (Hk & H0 & Hle) Hmax Hd.
  assert (incr (idPostCounter s) = idPostCounter s + 1) as Hincr.
  { apply incr_below_max. unfold int_min. lia. }
  assert (inmemoryPostDB s !! incr (idPostCounter s) = None) as Hfresh.
  { destruct (inmemoryPostDB s !! incr (idPostCounter s)) eqn:Hl; [|done].
    assert (0 < incr (idPostCounter s) <= idPostCounter s) by (apply Hle; eauto).
    lia. }
  rewrite (NewPostHandler_ok c s title body Hd). simpl.
  split; [done|]. split.
  - intros k p Hp. rewrite lookup_insert_ne; [done|]. intros <-. congruence.
  - by apply map_size_insert_None.
Qed.

(** X11: an ID is not handed out again after its post is deleted: the POST
    that follows a DELETE of post [id] takes an ID above [id], and [id]
    stays free. *)
Theorem DELETE_then_POST_fresh_ID (c c' : Context) (s : Store) (id : Z)
    (title body : string) :
  ids_issued s → idPostCounter s < int_max →
  Atoi (Param "id" c) = (id, None) → is_Some (inmemoryPostDB s !! id) →
  decode (RequestBody c') = inr (title, body) →
  let s1 := (DeletePostHandler c s).2 in
  Rendered (NewPostHandler decode c' s1).1
  = Some (JNewPostResp (mkNewPostResp (idPostCounter s + 1) title body))
  ∧ id < idPostCounter s + 1
  ∧ inmemoryPostDB (NewPostHandler decode c' s1).2 !! id = None.
Proof.
  intros (Hk & H0 & Hle) Hmax HA [post Hid] Hd s1. unfold s1.
  assert (incr (idPostCounter s) = idPostCounter s + 1) as Hincr.
  { apply incr_below_max. unfold int_min. lia. }
  assert (0 < id <= idPostCounter s) as Hrange by (apply Hle; eauto).
  rewrite (DeletePostHandler_known c s id post HA Hid).
  rewrite (NewPostHandler_ok c' _ title body Hd). simpl. rewrite Hincr.
  split; [done|]. split; [lia|].
  rewrite lookup_insert_ne by lia. apply lookup_delete_eq.
Qed.

End WithDecoder.

(** *** The theorems at work on [store1] *)

Lemma store1_keyed : keyed_by_ID store1.
Proof.
  apply (keyed_by_ID_db_call (CallAddPost (mkPost 0 "hello" "world")) init_store).
  apply keyed_by_ID_init.
Qed.

Lemma store1_ids_issued : ids_issued store1.
Proof.
  split; [apply store1_keyed|]. split; [done|].
  intros k [p Hp]. unfold store1 in *. simpl in *.
  rewrite lookup_insert in Hp. case_decide; [|by rewrite lookup_empty in Hp].
  subst k. done.
Qed.

Lemma POST_then_GET_witness :
  let c := new_Context ∅ "{}" in
  let c' := new_Context {[ "id" := "2" ]} "" in
  GetPostHandler c' (NewPostHandler sample_decode c store1).2
  = (JSON StatusOK
       (JGetPostResp (mkGetPostResp (incr (idPostCounter store1)) "" "")) c',
     (NewPostHandler sample_decode c store1).2).
Proof.
  apply (POST_then_GET sample_decode (new_Context ∅ "{}")
           (new_Context {[ "id" := "2" ]} "") store1 "" ""); reflexivity.
Defined.

Lemma GET_stored_post_witness :
  let c := new_Context {[ "id" := "1" ]} "" in
  GetPostHandler c store1
  = (JSON StatusOK (JGetPostResp (mkGetPostResp 1 "hello" "world")) c, store1).
Proof.
  apply (GET_stored_post (new_Context {[ "id" := "1" ]} "") store1 1
           (mkPost 1 "hello" "world")); [apply store1_keyed|reflexivity..].
Defined.

Lemma PATCH_stored_post_witness :
  let c := new_Context {[ "id" := "1" ]} "{}" in
  UpdatePostHanlder sample_decode c store1
  = (JSON StatusOK (JUpdatePostResp (mkUpdatePostResp 1 "" "")) c,
     mkStore (<[1 := mkPost 1 "" ""]> (inmemoryPostDB store1))
             (idPostCounter store1))
  ∧ dom (inmemoryPostDB (UpdatePostHanlder sample_decode c store1).2)
    = dom (inmemoryPostDB store1)
  ∧ ∀ k, k ≠ 1 →
         inmemoryPostDB (UpdatePostHanlder sample_decode c store1).2 !! k
         = inmemoryPostDB store1 !! k.
Proof.
  apply (PATCH_stored_post sample_decode (new_Context {[ "id" := "1" ]} "{}")
           store1 1 (mkPost 1 "hello" "world") "" "");
    [apply store1_keyed|reflexivity..].
Defined.

Lemma PATCH_then_GET_witness :
  let c := new_Context {[ "id" := "1" ]} "{}" in
  let c' := new_Context {[ "id" := "01" ]} "" in
  (GetPostHandler c' (UpdatePostHanlder sample_decode c store1).2).1
  = JSON StatusOK (JGetPostResp (mkGetPostResp 1 "" "")) c'.
Proof.
  apply (PATCH_then_GET sample_decode (new_Context {[ "id" := "1" ]} "{}")
           (new_Context {[ "id" := "01" ]} "") store1 1
           (mkPost 1 "hello" "world") "" "");
    [apply store1_keyed|reflexivity..].
Defined.

Lemma PATCH_twice_witness :
  let c := new_Context {[ "id" := "1" ]} "{}" in
  UpdatePostHanlder sample_decode c (UpdatePostHanlder sample_decode c store1).2
  = UpdatePostHanlder sample_decode c store1.
Proof.
  apply (PATCH_twice sample_decode (new_Context {[ "id" := "1" ]} "{}")
           store1 1 (mkPost 1 "hello" "world") "" "");
    [apply store1_keyed|reflexivity..].
Defined.

Lemma DELETE_twice_witness :
  let c := new_Context {[ "id" := "1" ]} "" in
  let s' := (DeletePostHandler c store1).2 in
  idPostCounter s' = idPostCounter store1
  ∧ (∀ k, k ≠ 1 → inmemoryPostDB s' !! k = inmemoryPostDB store1 !! k)
  ∧ Status (DeletePostHandler c s').1 = StatusNotFound
  ∧ (DeletePostHandler c s').2 = s'.
Proof.
  apply (DELETE_twice (new_Context {[ "id" := "1" ]} "") store1 1);
    [reflexivity|]. eexists. reflexivity.
Defined.

Lemma failed_or_read_request_keeps_store_witness :
  (serve sample_decode DELETE_posts_id (new_Context {[ "id" := "abc" ]} "")
     store1).2 = store1.
Proof.
  apply (failed_or_read_request_keeps_store sample_decode DELETE_posts_id
           (new_Context {[ "id" := "abc" ]} "") store1).
  right. right. vm_compute. discriminate.
Defined.

Lemma served_store_ids_issued_witness :
  ids_issued
    (serve_all sample_decode
       [(POST_posts, new_Context ∅ "{}");
        (PATCH_posts_id, new_Context {[ "id" := "1" ]} "{}");
        (DELETE_posts_id, new_Context {[ "id" := "1" ]} "");
        (POST_posts, new_Context ∅ "{}")]
       init_store).2.
Proof.
  apply (served_store_ids_issued sample_decode).
  - apply ids_issued_init.
  - vm_compute. discriminate.
Defined.

Lemma POST_keeps_stored_posts_witness :
  let c := new_Context ∅ "{}" in
  inmemoryPostDB store1 !! incr (idPostCounter store1) = None
  ∧ (∀ k p, inmemoryPostDB store1 !! k = Some p →
            inmemoryPostDB (NewPostHandler sample_decode c store1).2 !! k = Some p)
  ∧ size (inmemoryPostDB (NewPostHandler sample_decode c store1).2)
    = S (size (inmemoryPostDB store1)).
Proof.
  apply (POST_keeps_stored_posts sample_decode (new_Context ∅ "{}") store1 "" "").
  - apply store1_ids_issued.
  - vm_compute. reflexivity.
  - reflexivity.
Defined.

Lemma DELETE_then_POST_fresh_ID_witness :
  let c := new_Context {[ "id" := "1" ]} "" in
  let c' := new_Context ∅ "{}" in
  let s1 := (DeletePostHandler c store1).2 in
  Rendered (NewPostHandler sample_decode c' s1).1
  = Some (JNewPostResp (mkNewPostResp (idPostCounter store1 + 1) "" ""))
  ∧ 1 < idPostCounter store1 + 1
  ∧ inmemoryPostDB (NewPostHandler sample_decode c' s1).2 !! 1 = None.
Proof.
  apply (DELETE_then_POST_fresh_ID sample_decode
           (new_Context {[ "id" := "1" ]} "") (new_Context ∅ "{}") store1 1 "" "").
  - apply store1_ids_issued.
  - vm_compute. reflexivity.
  - reflexivity.
  - eexists. reflexivity.
  - reflexivity.
Defined.

End HandlerOutcomes.

(** ** More on the [DB] methods: the listing and how the methods compose *)
Module ListingProps.
Import GoInt Strconv Crud CrudRuns IntFacts DBProps.

Lemma maps_Values_IDs (s : Store) :
  keyed_by_ID s →
  ID <$> maps_Values (inmemoryPostDB s) = (map_to_list (inmemoryPostDB s)).*1.
Proof.
  intros Hk. unfold maps_Values. rewrite <- list_fmap_compose.
  apply list_fmap_ext. intros i [k p] Hi. simpl.
  apply (Hk k p), elem_of_map_to_list. by eapply list_elem_of_lookup_2.
Qed.

Lemma StronglySorted_le_NoDup_lt (l : list Z) :
  StronglySorted Z.le l → NoDup l → StronglySorted Z.lt l.
Proof.
  induction 1 as [|x l Hso IH Hall]; intros Hnd; [constructor|].
  apply NoDup_cons in Hnd as [Hx Hnd]. constructor; [by apply IH|].
  rewrite Forall_forall in Hall |- *. intros y Hy.
  specialize (Hall y Hy). assert (x ≠ y) by (by intros ->). lia.
Qed.

Lemma StronglySorted_fmap_inv {A B} (f : A → B) (R : relation B) (l : list A) :
  StronglySorted R (f <$> l) → StronglySorted (λ x y, R (f x) (f y)) l.
Proof.
  induction l as [|x l IH]; [constructor|]. rewrite fmap_cons.
  intros [Hall Hso]%StronglySorted_cons. constructor; [by apply IH|].
  by rewrite Forall_fmap in Hall.
Qed.

Lemma filter_Forall_id {A} (P : A → Prop) `{∀ x, Decision (P x)} (l : list A) :
  Forall P l → filter P l = l.
Proof.
  induction 1 as [|x l Hx Hl IH]; [done|].
  rewrite filter_cons. destruct (decide (P x)); [|done]. by rewrite IH.
Qed.

Lemma StronglySorted_filter_2 {A} (R : relation A) (P : A → Prop)
    `{∀ x, Decision (P x)} (l : list A) :
  StronglySorted R l → StronglySorted R (filter P l).
Proof.
  induction 1 as [|x l Hso IH Hall]; [constructor|].
  rewrite filter_cons. destruct (decide (P x)); [|done].
  constructor; [done|]. rewrite Forall_forall in Hall |- *.
  intros y [_ Hy]%list_elem_of_filter. by apply Hall.
Qed.

(** X12: in a store where posts sit under their IDs (every store the [DB]
    methods build), the listing is in strictly ascending order of ID: no two
    listed posts share an ID, and the listing has as many posts as the map
    has entries. *)
Theorem GetAllPost_strictly_ascending (s : Store) :
  keyed_by_ID s →
  StronglySorted (λ p q, ID p < ID q) (GetAllPost s).1
  ∧ NoDup (ID <$> (GetAllPost s).1)
  ∧ length (GetAllPost s).1 = size (inmemoryPostDB s).
Proof.
  intros Hk.
  destruct (SortedFunc_by_ID (inmemoryPostDB s) (maps_Values (inmemoryPostDB s)))
    as [Hperm Hso]; [done|].
  assert (NoDup (ID <$> (GetAllPost s).1)) as Hnd.
  { simpl. rewrite Hperm, (maps_Values_IDs s Hk). apply NoDup_fst_map_to_list. }
  split; [|split; [done|]].
  - apply StronglySorted_fmap_inv, StronglySorted_le_NoDup_lt; [|done].
    by apply (StronglySorted_fmap ID (λ p q, ID p <= ID q) Z.le).
  - simpl. rewrite Hperm. unfold maps_Values.
    by rewrite length_fmap, length_map_to_list.
Qed.

(** X13: every store a run of [DB] calls builds from the empty store keeps
    each post under its own ID. *)
Theorem DB_runs_keyed_by_ID (cs : list DBCall) :
  keyed_by_ID (run_calls cs init_store).2.
Proof. apply keyed_by_ID_run_calls, keyed_by_ID_init. Qed.

(** X14: when the keys in use are IDs the counter has handed out and the
    counter is below the largest [int], a post added by [AddPost] comes last
    in the listing, after the posts listed before, which keep their order. *)
Theorem GetAllPost_after_AddPost (newPost : Post) (s : Store) :
  ids_issued s → idPostCounter s < int_max →
  (GetAllPost (AddPost newPost s).2).1
  = (GetAllPost s).1 ++ [(AddPost newPost s).1.1].
Proof.
  intros (Hk & H0 & Hle) Hmax.
  assert (incr (idPostCounter s) = idPostCounter s + 1) as Hincr.
  { apply incr_below_max. unfold int_min. lia. }
  assert (inmemoryPostDB s !! incr (idPostCounter s) = None) as Hfresh.
  { destruct (inmemoryPostDB s !! incr (idPostCounter s)) eqn:Hl; [|done].
    assert (0 < incr (idPostCounter s) <= idPostCounter s) by (apply Hle; eauto).
    lia. }
  destruct (SortedFunc_by_ID (inmemoryPostDB s) (maps_Values (inmemoryPostDB s)))
    as [Hperm Hso]; [done|].
  symmetry. apply GetAllPost_unique.
  - apply (keyed_by_ID_db_call (CallAddPost newPost) s Hk).
  - simpl. unfold maps_Values. rewrite map_to_list_insert by done.
    rewrite fmap_cons. simpl. rewrite Hperm.
    by rewrite <- Permutation_cons_append.
  - apply StronglySorted_app_2; [|exact Hso|by repeat constructor].
    intros p q Hp Hq%list_elem_of_singleton. subst q. simpl.
    simpl in Hp. rewrite Hperm in Hp.
    apply elem_of_maps_Values in Hp as [k Hp].
    rewrite (Hk _ _ Hp). assert (0 < k <= idPostCounter s) by (apply Hle; eauto).
    lia.
Qed.

(** X15: in a store where posts sit under their IDs, [DeletePostByID]
    takes the post with that ID out of the listing and leaves the others
    in their order; with no such post the listing stays. *)
Theorem GetAllPost_after_DeletePostByID (id : Z) (s : Store) :
  keyed_by_ID s →
  (GetAllPost (DeletePostByID id s).2).1
  = filter (λ p, ID p ≠ id) (GetAllPost s).1.
Proof.
  intros Hk.
  destruct (SortedFunc_by_ID (inmemoryPostDB s) (maps_Values (inmemoryPostDB s)))
    as [Hperm Hso]; [done|].
  assert (keyed_by_ID (DeletePostByID id s).2) as Hk'
    by apply (keyed_by_ID_db_call (CallDeletePostByID id) s Hk).
  assert (Forall (λ p, ID p ≠ id) (maps_Values (delete id (inmemoryPostDB s))))
    as Hothers.
  { apply Forall_forall. intros p [k Hp]%elem_of_maps_Values.
    rewrite (Hk' k p Hp). intros ->. simpl in Hp.
    by rewrite lookup_delete_eq in Hp. }
  symmetry. apply GetAllPost_unique; [done| |by apply StronglySorted_filter_2].
  simpl. rewrite Hperm.
  destruct (inmemoryPostDB s !! id) as [post|] eqn:Hid.
  - unfold maps_Values in *.
    rewrite <- (map_to_list_delete (inmemoryPostDB s) id post Hid).
    rewrite fmap_cons, filter_cons. simpl.
    destruct (decide (ID post ≠ id)) as [Hne|_]; [by rewrite (Hk _ _ Hid) in Hne|].
    by rewrite filter_Forall_id.
  - rewrite delete_id in Hothers |- * by done. by rewrite filter_Forall_id.
Qed.

(** X16: in a store where posts sit under their IDs, [UpdatePost] of a
    post whose ID is stored puts it in the place of the old one in the
    listing; the other posts and the order stay. *)
Theorem GetAllPost_after_UpdatePost (updatePost : Post) (s : Store) :
  keyed_by_ID s → is_Some (inmemoryPostDB s !! ID updatePost) →
  (GetAllPost (UpdatePost updatePost s).2).1
  = (λ p, if decide (ID p = ID updatePost) then updatePost else p)
      <$> (GetAllPost s).1.
Proof.
  intros Hk [old Hold].
  set (f := λ p, if decide (ID p = ID updatePost) then updatePost else p).
  assert (∀ p, ID (f p) = ID p) as HfID.
  { intros p. unfold f. by destruct (decide (ID p = ID updatePost)). }
  destruct (SortedFunc_by_ID (inmemoryPostDB s) (maps_Values (inmemoryPostDB s)))
    as [Hperm Hso]; [done|].
  assert (keyed_by_ID (mkStore (delete (ID updatePost) (inmemoryPostDB s))
                               (idPostCounter s))) as Hk'
    by apply (keyed_by_ID_db_call (CallDeletePostByID (ID updatePost)) s Hk).
  symmetry. apply GetAllPost_unique.
  - apply (keyed_by_ID_db_call (CallUpdatePost updatePost) s Hk).
  - simpl. rewrite Hperm. unfold maps_Values.
    rewrite <- (insert_delete_eq (inmemoryPostDB s)).
    rewrite map_to_list_insert by apply lookup_delete_eq.
    rewrite <- (map_to_list_delete (inmemoryPostDB s) _ old Hold).
    rewrite !fmap_cons. simpl. unfold f at 1.
    rewrite (Hk _ _ Hold). destruct (decide (ID updatePost = ID updatePost)); [|done].
    apply Permutation_skip.
    set (vs := (map_to_list (delete (ID updatePost) (inmemoryPostDB s))).*2).
    assert (f <$> vs = vs) as ->; [|done].
    rewrite <- (list_fmap_id vs) at 2.
    apply list_fmap_ext. intros i p Hi. unfold f.
    destruct (decide (ID p = ID updatePost)) as [He|]; [|done].
    apply list_elem_of_lookup_2, list_elem_of_fmap in Hi as [[k q] [-> Hq]].
    apply elem_of_map_to_list in Hq. simpl in He.
    rewrite (Hk' k q Hq) in He. subst k. by rewrite lookup_delete_eq in Hq.
  - eapply StronglySorted_fmap; [|exact Hso]. intros p q. simpl.
    by rewrite !HfID.
Qed.

(** X17: [DeletePostByID] of an ID that is not stored returns a nil error
    and leaves the store as it was: at the DB layer a delete of a missing post
    is not an error. *)
Theorem DeletePostByID_missing (id : Z) (s : Store) :
  inmemoryPostDB s !! id = None → DeletePostByID id s = (None, s).
Proof.
  intros Hid. unfold DeletePostByID. rewrite delete_id by done. by destruct s.
Qed.

(** X23: [GET /posts] answers 200 and leaves the store; in a store where
    posts sit under their IDs the answer lists the IDs in strictly ascending
    order and holds an entry [{id, title, body}] exactly when the post stored
    under [id] has that title and body. *)
Theorem GET_posts_lists_store (c : Context) (s : Store) :
  keyed_by_ID s →
  ∃ resps,
    ListPostHanlder c s = (JSON StatusOK (JListPostDataResps resps) c, s)
    ∧ StronglySorted Z.lt (lpr_ID <$> resps)
    ∧ ∀ id title body,
        mkListPostDataResp id title body ∈ resps
        ↔ inmemoryPostDB s !! id = Some (mkPost id title body).
Proof.
  intros Hk. eexists. split; [reflexivity|].
  destruct (SortedFunc_by_ID (inmemoryPostDB s) (maps_Values (inmemoryPostDB s)))
    as [Hperm Hso]; [done|].
  assert (NoDup (ID <$> (GetAllPost s).1)) as Hnd.
  { simpl. rewrite Hperm, (maps_Values_IDs s Hk). apply NoDup_fst_map_to_list. }
  split.
  - rewrite <- list_fmap_compose. apply StronglySorted_le_NoDup_lt; [|exact Hnd].
    by apply (StronglySorted_fmap ID (λ p q, ID p <= ID q) Z.le).
  - intros id title body. rewrite list_elem_of_fmap. simpl. split.
    + intros ([i t b] & [= -> -> ->] & Hin). rewrite Hperm in Hin.
      apply elem_of_maps_Values in Hin as [k Hin].
      by rewrite <- (Hk _ _ Hin) in Hin.
    + intros Hid. exists (mkPost id title body). split; [done|].
      rewrite Hperm. apply elem_of_maps_Values. eauto.
Qed.

(** *** The theorems at work on [store1] *)

Lemma GetAllPost_strictly_ascending_witness :
  StronglySorted (λ p q, ID p < ID q) (GetAllPost store1).1
  ∧ NoDup (ID <$> (GetAllPost store1).1)
  ∧ length (GetAllPost store1).1 = size (inmemoryPostDB store1).
Proof. apply (GetAllPost_strictly_ascending store1), HandlerOutcomes.store1_keyed. Defined.

Lemma GetAllPost_after_AddPost_witness :
  (GetAllPost (AddPost (mkPost 0 "second" "post") store1).2).1
  = (GetAllPost store1).1 ++ [(AddPost (mkPost 0 "second" "post") store1).1.1].
Proof.
  apply (GetAllPost_after_AddPost (mkPost 0 "second" "post") store1).
  - apply HandlerOutcomes.store1_ids_issued.
  - vm_compute. reflexivity.
Defined.

Lemma GetAllPost_after_DeletePostByID_witness :
  (GetAllPost (DeletePostByID 1 store1).2).1
  = filter (λ p, ID p ≠ 1) (GetAllPost store1).1.
Proof. apply (GetAllPost_after_DeletePostByID 1 store1), HandlerOutcomes.store1_keyed. Defined.

Lemma GetAllPost_after_UpdatePost_witness :
  (GetAllPost (UpdatePost (mkPost 1 "new" "text") store1).2).1
  = (λ p, if decide (ID p = 1) then mkPost 1 "new" "text" else p)
      <$> (GetAllPost store1).1.
Proof.
  apply (GetAllPost_after_UpdatePost (mkPost 1 "new" "text") store1).
  - apply HandlerOutcomes.store1_keyed.
  - eexists. reflexivity.
Defined.

Lemma DeletePostByID_missing_witness : DeletePostByID 7 store1 = (None, store1).
Proof. apply (DeletePostByID_missing 7 store1). reflexivity. Defined.

Lemma GET_posts_lists_store_witness :
  ∃ resps,
    ListPostHanlder (new_Context ∅ "") store1
    = (JSON StatusOK (JListPostDataResps resps) (new_Context ∅ ""), store1)
    ∧ StronglySorted Z.lt (lpr_ID <$> resps)
    ∧ ∀ id title body,
        mkListPostDataResp id title body ∈ resps
        ↔ inmemoryPostDB store1 !! id = Some (mkPost id title body).
Proof.
  apply (GET_posts_lists_store (new_Context ∅ "") store1), HandlerOutcomes.store1_keyed.
Defined.

End ListingProps.

(** ** More on the notifier demo: the world, and the two handlers compared *)
Module NotifyOutcomes.
Import Notify NotifyRuns NotifyProps.

Section WithWorld.

Variable World : Type.

Implicit Types (ns : list (PostUpdateNotifier World)) (r : Run World).
Implicit Types (c : Context) (new : list (Call World)).

Lemma replay_app (w : World) new1 new2 :
  replay w (new1 ++ new2) = replay (replay w new1) new2.
Proof. revert w. induction new1 as [|cl new1 IH]; intros w; [done|]. apply IH. Qed.

Lemma faithful_app (w : World) new1 new2 :
  faithful w (new1 ++ new2) ↔ faithful w new1 ∧ faithful (replay w new1) new2.
Proof.
  revert w. induction new1 as [|cl new1 IH]; intros w; simpl; [tauto|].
  rewrite IH. tauto.
Qed.

Lemma range_notifiers_replay ns post c r :
  ∃ new,
    calls (range_notifiers ns post c r).2 = calls r ++ new
    ∧ world (range_notifiers ns post c r).2 = replay (world r) new
    ∧ faithful (world r) new.
Proof.
  revert r. induction ns as [|n ns IH]; intros r.
  - exists []. simpl. by rewrite app_nil_r.
  - simpl. unfold invoke.
    destruct (NotifyPostUpdated n post ActionUpdate (world r)) as [[err|] w'] eqn:Hn.
    + exists [mkCall n post ActionUpdate (Some err)]. simpl. by rewrite Hn.
    + destruct (IH (mkRun w' (calls r ++ [mkCall n post ActionUpdate None])))
        as (new & Hcalls & Hworld & Hf).
      exists (mkCall n post ActionUpdate None :: new). simpl in *.
      rewrite Hn. simpl. by rewrite Hcalls, <- app_assoc.
Qed.

Lemma range_notifiers_app ns1 ns2 post c r :
  range_notifiers (ns1 ++ ns2) post c r
  = if (range_notifiers ns1 post c r).1.1 then range_notifiers ns1 post c r
    else range_notifiers ns2 post (range_notifiers ns1 post c r).1.2
                         (range_notifiers ns1 post c r).2.
Proof.
  revert r. induction ns1 as [|n ns1 IH]; intros r; [done|].
  simpl. destruct (invoke n post ActionUpdate r) as [[err|] r']; [done|]. apply IH.
Qed.

Lemma range_notifiers_ok_context ns post c r :
  (range_notifiers ns post c r).1.1 = false →
  (range_notifiers ns post c r).1.2 = c.
Proof.
  revert r. induction ns as [|n ns IH]; intros r; [done|].
  simpl. destruct (invoke n post ActionUpdate r) as [[err|] r']; [done|]. apply IH.
Qed.

(** X18: [UpdateHandler] acts on the world through its calls only: the
    world it leaves is the world it found after the calls of its trace, made
    in order, and each call returned what the notifier's method returns at
    that point.  What the notifiers before a failing one did stays done. *)
Theorem UpdateHandler_world (h : PostHandler World) c r :
  ∃ new,
    calls (UpdateHandler h c r).2 = calls r ++ new
    ∧ world (UpdateHandler h c r).2 = replay (world r) new
    ∧ faithful (world r) new.
Proof.
  unfold UpdateHandler.
  destruct (range_notifiers_replay (notifiers h) Post_zero c r) as (new & Hnew).
  exists new. by destruct (range_notifiers (notifiers h) Post_zero c r) as [[[] ?] ?].
Qed.

(** X19: with notifiers [ns1 ++ ns2], [UpdateHandler] does what it does
    with [ns1] alone when one of [ns1] fails; when none fails, it goes on as
    the handler with [ns2] does from the trace and world [ns1] left. *)
Theorem UpdateHandler_app ns1 ns2 c r :
  UpdateHandler (NewPostHandler (ns1 ++ ns2)) c r
  = if (range_notifiers ns1 Post_zero c r).1.1
    then UpdateHandler (NewPostHandler ns1) c r
    else UpdateHandler (NewPostHandler ns2) c
           (UpdateHandler (NewPostHandler ns1) c r).2.
Proof.
  unfold UpdateHandler. simpl. rewrite range_notifiers_app.
  pose proof (range_notifiers_ok_context ns1 Post_zero c r) as Hc.
  destruct (range_notifiers ns1 Post_zero c r) as [[[] c1] r1]; simpl in *; [done|].
  by rewrite Hc.
Qed.

(** X20: when none of the notifiers is a [*EmailNotifier], the handler of
    lsp.go calls nothing, leaves the world and the trace as they are, and
    answers 200: no notification goes out. *)
Theorem lsp_UpdateHandler_no_EmailNotifier (h : PostHandler World) c r :
  Forall (λ n, is_EmailNotifierPtr n = false) (notifiers h) →
  lsp_UpdateHandler h c r = (JSON 200 status_post_updated c, r).
Proof.
  intros Hall. unfold lsp_UpdateHandler.
  assert (lsp_range_notifiers (notifiers h) Post_zero c r = (false, c, r)) as ->; [|done].
  induction Hall as [|n ns Hn Hall IH]; [done|]. simpl. by rewrite Hn.
Qed.

(** X21: when all the notifiers are [*EmailNotifier]s, the handler of lsp.go
    and the handler of the demo do the same. *)
Theorem lsp_UpdateHandler_all_EmailNotifier (h : PostHandler World) c r :
  Forall (λ n, is_EmailNotifierPtr n = true) (notifiers h) →
  lsp_UpdateHandler h c r = UpdateHandler h c r.
Proof.
  intros Hall. unfold lsp_UpdateHandler, UpdateHandler.
  rewrite lsp_range_notifiers_filter.
  by rewrite (ListingProps.filter_Forall_id _ _ Hall).
Qed.

Lemma UpdateHandler_calls (h : PostHandler World) c r :
  calls (UpdateHandler h c r).2
  = calls (range_notifiers (notifiers h) Post_zero c r).2.
Proof.
  unfold UpdateHandler.
  by destruct (range_notifiers (notifiers h) Post_zero c r) as [[[] ?] ?].
Qed.

(** X22: the handler passes the zero post to every notifier, so each mail a
    [*EmailNotifier] sends for it goes from [noreply@example.com] to the
    empty address, with the fixed subject and a body whose title and body
    lines are empty; the call returns what the mail service returns. *)
Theorem UpdateHandler_mail_blank (h : PostHandler World) c r new0 cl rest
    (n : EmailNotifier World) :
  calls (UpdateHandler h c r).2 = calls r ++ new0 ++ cl :: rest →
  callee cl = EmailNotifierPtr n →
  returned cl
  = (SendEmail World (emailService World n) "noreply@example.com" ""
       "Post Update Notification" blank_update_body
       (replay (world r) new0)).1.
Proof.
  intros Hcalls Hn. rewrite UpdateHandler_calls in Hcalls.
  destruct (range_notifiers_replay (notifiers h) Post_zero c r)
    as (new & Hnew & _ & Hf).
  destruct (range_notifiers_calls World (notifiers h) Post_zero c r)
    as (new' & Hnew' & _ & Hargs & _).
  rewrite Hcalls in Hnew, Hnew'.
  apply app_inv_head in Hnew, Hnew'. subst new new'.
  apply faithful_app in Hf as [_ [Hret _]].
  rewrite Forall_app, Forall_cons in Hargs.
  destruct Hargs as (_ & [Hpost Haction] & _).
  rewrite Hret, Hn, Hpost, Haction. reflexivity.
Qed.

(** X24: [UpdateHandler] calls the registered notifiers in order, each with
    the zero post and [ActionUpdate], and acts on the world through these
    calls only; each call returned what the notifier's method returns in the
    world the calls before it left.  If a call returns an error it is the last
    one made: no response is written and the notifiers after it are not
    called.  If every call returns nil, all notifiers were called and the
    response is 200 with the body [{"status": "post updated"}].  Either way
    the context of the caller gains no error: the handler appends the error
    to its own copy. *)
Theorem UpdateHandler_calls_until_first_error (h : PostHandler World) c r :
  ∃ new,
    calls (call_UpdateHandler h c r).2 = calls r ++ new
    ∧ world (call_UpdateHandler h c r).2 = replay (world r) new
    ∧ faithful (world r) new
    ∧ callee <$> new `prefix_of` notifiers h
    ∧ Forall (λ cl, arg_post cl = Post_zero ∧ arg_action cl = ActionUpdate) new
    ∧ Errors (call_UpdateHandler h c r).1 = Errors c
    ∧ (callee <$> new = notifiers h
       ∧ Forall (λ cl, returned cl = None) new
       ∧ Response (call_UpdateHandler h c r).1
         = Some (200, {[ "status" := "post updated" ]})
       ∨
       ∃ new0 cl err,
         new = new0 ++ [cl]
         ∧ Forall (λ cl, returned cl = None) new0
         ∧ returned cl = Some err
         ∧ Response (call_UpdateHandler h c r).1 = Response c
         ∧ Errors (UpdateHandler h c r).1 = Errors c ++ [err]).
Proof.
  unfold call_UpdateHandler, UpdateHandler. simpl.
  destruct (range_notifiers_replay (notifiers h) Post_zero c r)
    as (new & Hnew & Hworld & Hf).
  destruct (range_notifiers_calls World (notifiers h) Post_zero c r)
    as (new' & Hnew' & Hpre & Hargs & Hend).
  rewrite Hnew in Hnew'. apply app_inv_head in Hnew'. subst new'.
  destruct (range_notifiers (notifiers h) Post_zero c r) as [[ret c'] r'].
  simpl in *. exists new.
  destruct Hend as [(-> & Hall & Hok & ->)
                   |(new0 & cl & err & -> & -> & Hok & Herr & ->)]; simpl.
  - do 6 (split; [done|]). left. done.
  - do 6 (split; [done|]). right. exists new0, cl, err. done.
Qed.

End WithWorld.

(** C7: with the mail service down, the handler of the notifier demo makes
    the one call to the mail notifier and none to the line notifier, and
    writes no response; the error is on the handler's copy of the context
    only, and the context of the request holds none after the call. *)
Lemma UpdateHandler_error_lost :
  let mail := EmailNotifierPtr (mkEmailNotifier outbox mailer_down) in
  let h := NewPostHandler [mail; line_up] in
  callee <$> calls (call_UpdateHandler h new_Context (start [])).2 = [mail]
  ∧ returned <$> calls (call_UpdateHandler h new_Context (start [])).2
    = [Some (ErrOther "smtp: down")]
  ∧ world (call_UpdateHandler h new_Context (start [])).2 = []
  ∧ Response (call_UpdateHandler h new_Context (start [])).1 = None
  ∧ Errors (UpdateHandler h new_Context (start [])).1 = [ErrOther "smtp: down"]
  ∧ Errors (call_UpdateHandler h new_Context (start [])).1 = [].
Proof. repeat split; reflexivity. Qed.

(** *** The theorems at work on the sample services *)

Lemma lsp_UpdateHandler_no_EmailNotifier_witness :
  lsp_UpdateHandler (NewPostHandler [line_down; line_up]) new_Context (start [])
  = (JSON 200 status_post_updated new_Context, start []).
Proof.
  apply (lsp_UpdateHandler_no_EmailNotifier outbox
           (NewPostHandler [line_down; line_up]) new_Context (start [])).
  by repeat constructor.
Defined.

Lemma lsp_UpdateHandler_all_EmailNotifier_witness :
  let h := NewPostHandler [EmailNotifierPtr (mkEmailNotifier outbox mailer_up);
                           EmailNotifierPtr (mkEmailNotifier outbox mailer_down)] in
  lsp_UpdateHandler h new_Context (start []) = UpdateHandler h new_Context (start []).
Proof.
  apply (lsp_UpdateHandler_all_EmailNotifier outbox). by repeat constructor.
Defined.

Lemma UpdateHandler_mail_blank_witness :
  let n := mkEmailNotifier outbox mailer_down in
  let cl := mkCall (EmailNotifierPtr n) Post_zero ActionUpdate
                   (Some (ErrOther "smtp: down")) in
  returned cl
  = (SendEmail outbox (emailService outbox n) "noreply@example.com" ""
       "Post Update Notification" blank_update_body
       (replay (world (start [])) [])).1.
Proof.
  apply (UpdateHandler_mail_blank outbox
           (NewPostHandler [EmailNotifierPtr (mkEmailNotifier outbox mailer_down);
                            line_up])
           new_Context (start []) [] _ []); reflexivity.
Defined.

End NotifyOutcomes.
